(** * incognito-monitor: the node store and the status aggregator

    A shallow embedding of [src/electron/index.js], the main-process side of
    the dashboard: the persisted list of node endpoints ([readNodes],
    [addNode], [deleteNode], [getNodes], [exportNodes], [importNodes]) and the
    aggregation of RPC answers into display records ([nodeWithStatus],
    [getChains], [getBlocks]).

    JavaScript values are embedded with the types the handlers use them at:
    object literals are records, numbers are integers ([Z]), a variable that
    is declared and perhaps never assigned ([let totalBlocks;]) or a property
    that may be missing is an [option] whose [None] is [undefined], an awaited
    promise is a [completion] (a value or a thrown error), and a block of
    statements is a function from the mutable state it works on to the new
    state and its completion.  A handler's result is what it passes to
    [event.reply] (or assigns to [event.returnValue]); a handler that ends
    with [Throw] replies nothing.  Calls to the logger are left out: they
    change neither the files nor what is replied. *)

From Stdlib Require Import ZArith Lia.
From stdpp Require Import base option list strings gmap pretty sorting.

(** ** Completions: a value, or a thrown error / rejected promise *)

Inductive exn :=
  | TypeError (msg : string)     (* property read on [undefined] *)
  | SyntaxError (msg : string)   (* [JSON.parse] on text that is not JSON *)
  | ENOENT (path : string)       (* file system: no such file *)
  | RpcError (msg : string).     (* the RPC client rejected *)

Inductive completion (A : Type) :=
  | Return (a : A)
  | Throw (e : exn).
Arguments Return {A} a.
Arguments Throw {A} e.

(** ** Statements: state passing with exceptions

    [stmt S A] is a piece of code running on mutable state [S].  Effects made
    before a [throw] stay: [try_catch] hands the handler the state as the
    body left it. *)

Definition stmt (S A : Type) : Type := S → S * completion A.

Definition ret {S A} (a : A) : stmt S A := λ s, (s, Return a).
Definition throw {S A} (e : exn) : stmt S A := λ s, (s, Throw e).
Definition bind {S A B} (m : stmt S A) (k : A → stmt S B) : stmt S B :=
  λ s, match m s with
       | (s', Return a) => k a s'
       | (s', Throw e) => (s', Throw e)
       end.
Definition try_catch {S A} (body : stmt S A) (handler : exn → stmt S A) : stmt S A :=
  λ s, match body s with
       | (s', Return a) => (s', Return a)
       | (s', Throw e) => handler e s'
       end.
Definition get {S} : stmt S S := λ s, (s, Return s).
Definition modify {S} (f : S → S) : stmt S () := λ s, (f s, Return ()).
(** [await p]: the promise [p] has settled; a rejection is thrown here. *)
Definition await {S A} (p : completion A) : stmt S A := λ s, (s, p).
(** [prop o f] is the property read [o.f] on a value that may be
    [undefined]: reading a property of [undefined] throws a [TypeError]. *)
Definition prop {S A B} (o : option A) (f : A → B) : stmt S B :=
  match o with
  | Some a => ret (f a)
  | None => throw (TypeError "Cannot read property of undefined")
  end.

Notation "'let*' x ':=' m 'in' k" := (bind m (λ x, k))
  (at level 10, x name, m at level 100, k at level 200, only parsing).
Notation "m ';;;' k" := (bind m (λ _, k))
  (at level 100, k at level 200, right associativity, only parsing).

(** ** Data *)

(** A registered endpoint, one element of the persisted JSON array. *)
Record node := Node { name : string; host : string; port : Z }.

Global Instance node_eq_dec : EqDecision node.
Proof. solve_decision. Defined.

Inductive onlineStatus := ONLINE | OFFLINE.

(** The object [{...node, status, totalBlocks, beaconHeight}]. *)
Record nodeStatus := NodeStatus {
  endpoint : node;
  status : onlineStatus;
  totalBlocks : option Z;
  beaconHeight : option Z;
}.

Module BeaconBestState.
Record t := Make {
  BeaconHeight : Z;
  BestBlockHash : string;
  Epoch : Z;
  ActiveShards : Z;
}.
End BeaconBestState.

Module ShardBestState.
Record t := Make {
  ShardHeight : Z;
  BestBlockHash : string;
  Epoch : Z;
  TotalTxns : Z;
}.
End ShardBestState.

(** A block as [GetBlocks] returns it; [Txs], [Fee] and [Reward] may be
    missing. *)
Module RawBlock.
Record t := Make {
  Height : Z;
  Hash : string;
  BlockProducer : string;
  Txs : option Z;
  Fee : option Z;
  Reward : option Z;
  Time : Z;
}.
End RawBlock.

(** An entry of [chains] in [getChains]; the beacon entry has no
    [totalTxs]. *)
Module Chain.
Record t := Make {
  name : string;
  height : Z;
  hash : string;
  epoch : Z;
  totalTxs : option Z;
  index : Z;
}.
End Chain.

(** An entry of [formattedBlocks] in [getBlocks]. *)
Module Block.
Record t := Make {
  height : Z;
  hash : string;
  producer : string;
  tXS : Z;
  fee : Z;
  reward : Z;
  time : Z;
}.
End Block.

(** The object [chain] that [getBlocks] replies with. *)
Module BlockList.
Record t := Make {
  name : string;
  totalBlocks : Z;
  producer : string;
  blocks : list Block.t;
}.
End BlockList.

(** What [getChains] replies with: [nodeInfo] after [nodeInfo.chains] has
    been set, or the literal [{ chains: [], name: nodeName }]. *)
Inductive chainsReply :=
  | NodeInfo (nodeInfo : nodeStatus) (chains : list Chain.t)
  | NameOnly (chains : list Chain.t) (name : string).

(** ** The environment of the handlers *)

(** One [ConstantRPC] object.  Every method is a network call that resolves
    with the decoded answer or rejects. *)
Record rpcClient := RpcClient {
  GetNetworkInfo : completion ();
  GetBlockCount : Z → completion Z;
  GetBeaconBestState : completion BeaconBestState.t;
  GetShardBestState : Z → completion ShardBestState.t;
  GetBlocks : Z → Z → completion (list RawBlock.t);
}.

(** What [index.js] requires from outside: the contents of files and the
    JSON codec of the runtime, the RPC client module [./incognitoRpc], and the
    two paths, which depend on the home and the installation directories. *)
Class Platform := {
  Buffer : Type;
  Buffer_empty : Buffer;
  JSON_parse : Buffer → completion (list node);
  JSON_stringify : list node → Buffer;
  ConstantRPC : string → Z → rpcClient;
  dataPath : string;
  sampleDataPath : string;
}.

(** The file system: the files that exist, by path. *)
Abbreviation files := (gmap string Buffer).

(** ** lodash *)

(** [_.range(start, end)] on integers: the step is [1] when
    [start < end] and [-1] otherwise, and [end] is not included. *)
Definition range (start end_ : Z) : list Z :=
  if (start <? end_)%Z
  then seqZ start (end_ - start)
  else (λ i, start - i)%Z <$> seqZ 0 (start - end_).

(** [_.orderBy(collection, key)]: a stable sort, ascending by [key]. *)
Fixpoint insertBy {A} (key : A → Z) (x : A) (l : list A) : list A :=
  match l with
  | [] => [x]
  | y :: l' => if (key y <? key x)%Z then y :: insertBy key x l' else x :: y :: l'
  end.

Definition orderBy {A} (key : A → Z) (l : list A) : list A :=
  foldr (insertBy key) [] l.

(** ** JavaScript operators *)

(** [x || d] where [x] is a number or [undefined]: [undefined] and [0] are
    falsy. *)
Definition or_default (x : option Z) (d : Z) : Z :=
  match x with
  | Some n => if (n =? 0)%Z then d else n
  | None => d
  end.

(** [Promise.all(promises)]: the results in the order of [promises], or a
    rejection when one of them rejects. *)
Fixpoint Promise_all {A} (promises : list (completion A)) : completion (list A) :=
  match promises with
  | [] => Return []
  | Return a :: rest =>
      match Promise_all rest with
      | Return l => Return (a :: l)
      | Throw e => Throw e
      end
  | Throw e :: _ => Throw e
  end.

(** The variables [status], [totalBlocks] and [beaconHeight] that
    [nodeWithStatus] declares before its [try]. *)
Module Locals.
Record t := Make {
  status : onlineStatus;
  totalBlocks : option Z;
  beaconHeight : option Z;
}.
End Locals.

Section Handlers.
Context `{Platform}.

(** *** Node's [fs] module *)

Definition readFileSync (path : string) : stmt files Buffer := λ fs,
  match fs !! path with
  | Some data => (fs, Return data)
  | None => (fs, Throw (ENOENT path))
  end.

(** [fs.writeFileSync] returns [undefined]. *)
Definition writeFileSync (path : string) (data : Buffer) : stmt files (option exn) := λ fs,
  (<[path := data]> fs, Return None).

Definition existsSync (path : string) : stmt files bool := λ fs,
  (fs, Return (bool_decide (is_Some (fs !! path)))).

(** [fs.createReadStream(src).pipe(fs.createWriteStream(dst))], up to the
    [finish] event.  Opening [dst] for writing creates or empties it; a
    missing [src] is an [error] event that nothing listens to. *)
Definition pipe (src dst : string) : stmt files () := λ fs,
  match fs !! src with
  | Some data =>
      if decide (src = dst)
      then (<[dst := Buffer_empty]> fs, Return ())
      else (<[dst := data]> fs, Return ())
  | None => (<[dst := Buffer_empty]> fs, Throw (ENOENT src))
  end.

(** *** [readNodes]

    [fs.readFileSync] returns a [Buffer], an object and so truthy: the
    ['[]'] of [fs.readFileSync(dataPath) || '[]'] is never taken. *)
Definition readNodes : stmt files (list node) :=
  let* nodesInString := readFileSync dataPath in
  await (JSON_parse nodesInString).

(** *** [nodeWithStatus] *)

Definition nodeWithStatus_body (node : node) : stmt Locals.t nodeStatus :=
  let rpc := ConstantRPC (host node) (port node) in
  try_catch
    (let* _ := await (GetNetworkInfo rpc) in
     let* count := await (GetBlockCount rpc 0) in
     modify (λ l, Locals.Make (Locals.status l) (Some count) (Locals.beaconHeight l));;;
     let* state := await (GetBeaconBestState rpc) in
     modify (λ l, Locals.Make (Locals.status l) (Locals.totalBlocks l)
                              (Some (BeaconBestState.BeaconHeight state)));;;
     modify (λ l, Locals.Make ONLINE (Locals.totalBlocks l) (Locals.beaconHeight l)))
    (λ error, ret ());;;
  let* l := get in
  ret {| endpoint := node;
         status := Locals.status l;
         totalBlocks := Locals.totalBlocks l;
         beaconHeight := Locals.beaconHeight l |}.

Definition nodeWithStatus (node : node) : completion nodeStatus :=
  (nodeWithStatus_body node (Locals.Make OFFLINE None None)).2.

(** *** [addNode] *)

Definition addNode (newNode : node) : stmt files (option nodeStatus) :=
  let* nodes := readNodes in
  let newNodes := nodes ++ [newNode] in
  let* err := writeFileSync dataPath (JSON_stringify newNodes) in
  match err with
  | Some _ => ret None
  | None =>
      let* fullNode := await (nodeWithStatus newNode) in
      ret (Some fullNode)
  end.

(** *** [getNodes] *)

Definition getNodes : stmt files (list nodeStatus) :=
  let* found := existsSync dataPath in
  if found : bool then
    let* nodes := readNodes in
    await (Promise_all (nodeWithStatus <$> nodes))
  else
    pipe sampleDataPath dataPath;;;
    let* nodes := readNodes in
    await (Promise_all (nodeWithStatus <$> nodes)).

(** *** [exportNodes] and [importNodes]

    The argument is what the dialog returned: [None] is [undefined], and an
    empty string or array is falsy as well. *)

Definition exportNodes (savedFilePath : option string) : stmt files string :=
  match savedFilePath with
  | Some path =>
      if decide (path = "") then ret "cancel"
      else pipe dataPath path;;; ret "success"
  | None => ret "cancel"
  end.

Definition importNodes (filePath : option (list string)) : stmt files string :=
  match filePath with
  | Some (path :: _) => pipe path dataPath;;; ret "success"
  | Some [] => ret "cancel"
  | None => ret "cancel"
  end.

(** *** [getChains] *)

(** The object pushed for the beacon chain. *)
Definition beaconChain (beaconInfo : BeaconBestState.t) : Chain.t :=
  {| Chain.name := "Beacon";
     Chain.height := BeaconBestState.BeaconHeight beaconInfo;
     Chain.hash := BeaconBestState.BestBlockHash beaconInfo;
     Chain.epoch := BeaconBestState.Epoch beaconInfo;
     Chain.totalTxs := None;
     Chain.index := -1 |}.

(** The object pushed for shard [shardIndex]. *)
Definition shardChain (shardIndex : Z) (shard : ShardBestState.t) : Chain.t :=
  {| Chain.name := "Shard " +:+ pretty (shardIndex + 1)%Z;
     Chain.height := ShardBestState.ShardHeight shard;
     Chain.hash := ShardBestState.BestBlockHash shard;
     Chain.epoch := ShardBestState.Epoch shard;
     Chain.totalTxs := Some (ShardBestState.TotalTxns shard);
     Chain.index := shardIndex |}.

(** The callbacks given to [Promise.all] each wait for their own shard and
    then push onto [chains]; [pending] lists the shards in the order in
    which their answers come in.  The first rejection rejects the whole. *)
Fixpoint pushShards (rpc : rpcClient) (pending : list Z) (chains : list Chain.t)
    : completion (list Chain.t) :=
  match pending with
  | [] => Return chains
  | shardIndex :: rest =>
      match GetShardBestState rpc shardIndex with
      | Return shard => pushShards rpc rest (chains ++ [shardChain shardIndex shard])
      | Throw e => Throw e
      end
  end.

(** [arrival i] is the time at which the answer for shard [i] comes in: the
    callbacks resume in ascending order of arrival, and in the order of the
    calls when two answers arrive together. *)
Definition getChains (arrival : Z → Z) (nodeName : string) : stmt files chainsReply :=
  try_catch
    (let* nodes := readNodes in
     let node := find (λ item, bool_decide (name item = nodeName)) nodes in
     let* host := prop node host in
     let* port := prop node port in
     let rpc := ConstantRPC host port in
     let* beaconInfo := await (GetBeaconBestState rpc) in
     let chains := [] in
     let chains := chains ++ [beaconChain beaconInfo] in
     let* chains :=
       await (pushShards rpc
                (orderBy arrival (range 0 (BeaconBestState.ActiveShards beaconInfo)))
                chains) in
     (* [node] is an object here: [node.host] above did not throw *)
     let* nodeInfo := prop node nodeWithStatus in
     let* nodeInfo := await nodeInfo in
     ret (NodeInfo nodeInfo (orderBy Chain.index chains)))
    (λ error, ret (NameOnly [] nodeName)).

(** *** [getBlocks] *)

Definition formatBlock (block : RawBlock.t) : Block.t :=
  {| Block.height := RawBlock.Height block;
     Block.hash := RawBlock.Hash block;
     Block.producer := RawBlock.BlockProducer block;
     Block.tXS := or_default (RawBlock.Txs block) 0;
     Block.fee := or_default (RawBlock.Fee block) 0;
     Block.reward := or_default (RawBlock.Reward block) 0;
     Block.time := RawBlock.Time block |}.

(** [shardId] is the integer that [parseInt(shardId)] yields. *)
Definition getBlocks (nodeName : string) (shardId : Z) : stmt files BlockList.t :=
  let shardIndex := shardId in
  let* nodes := readNodes in
  let node := find (λ item, bool_decide (name item = nodeName)) nodes in
  let* host := prop node host in
  let* port := prop node port in
  let rpc := ConstantRPC host port in
  let* blocks := await (GetBlocks rpc 10 shardIndex) in
  let formattedBlocks := formatBlock <$> blocks in
  let latestBlock := formattedBlocks !! 0%nat in
  let name := if decide (shardIndex = -1)%Z then "Beacon"
              else "Shard " +:+ pretty (shardIndex + 1)%Z in
  let* totalBlocks := prop latestBlock Block.height in
  let* producer := prop latestBlock Block.producer in
  ret {| BlockList.name := name;
         BlockList.totalBlocks := totalBlocks;
         BlockList.producer := producer;
         BlockList.blocks := formattedBlocks |}.

(** *** [deleteNode] *)

Definition deleteNode (nodeName : string) : stmt files (option string) :=
  let* nodes := readNodes in
  let newNodes := filter (λ node, name node ≠ nodeName) nodes in
  let* err := writeFileSync dataPath (JSON_stringify newNodes) in
  match err with
  | Some _ => ret None
  | None => ret (Some nodeName)
  end.

(** *** Notions used to state the properties *)

(** One of the three probe calls of [nodeWithStatus] throws. *)
Definition probeFails (rpc : rpcClient) : Prop :=
  (∃ e, GetNetworkInfo rpc = Throw e) ∨
  (∃ e, GetBlockCount rpc 0 = Throw e) ∨
  (∃ e, GetBeaconBestState rpc = Throw e).

(** A step of [getChains] fails: the store cannot be read, no stored
    endpoint has the name, the beacon call throws, or the call for one of
    the active shards throws. *)
Inductive chainsStepFails (nodeName : string) (fs : files) : Prop :=
  | store_unreadable e :
      (readNodes fs).2 = Throw e →
      chainsStepFails nodeName fs
  | name_absent nodes :
      readNodes fs = (fs, Return nodes) →
      find (λ item, bool_decide (name item = nodeName)) nodes = None →
      chainsStepFails nodeName fs
  | beacon_fails nodes node e :
      readNodes fs = (fs, Return nodes) →
      find (λ item, bool_decide (name item = nodeName)) nodes = Some node →
      GetBeaconBestState (ConstantRPC (host node) (port node)) = Throw e →
      chainsStepFails nodeName fs
  | shard_fails nodes node beaconInfo shardIndex e :
      readNodes fs = (fs, Return nodes) →
      find (λ item, bool_decide (name item = nodeName)) nodes = Some node →
      GetBeaconBestState (ConstantRPC (host node) (port node)) = Return beaconInfo →
      shardIndex ∈ range 0 (BeaconBestState.ActiveShards beaconInfo) →
      GetShardBestState (ConstantRPC (host node) (port node)) shardIndex = Throw e →
      chainsStepFails nodeName fs.

(** No two endpoints of the list have the same name. *)
Definition uniqueNames (nodes : list node) : Prop := NoDup (name <$> nodes).

(** The file systems that [addNode] and [deleteNode] lead to from [fs0]. *)
Inductive reachable (fs0 : files) : files → Prop :=
  | reachable_start : reachable fs0 fs0
  | reachable_add fs newNode :
      reachable fs0 fs → reachable fs0 (addNode newNode fs).1
  | reachable_delete fs nodeName :
      reachable fs0 fs → reachable fs0 (deleteNode nodeName fs).1.

End Handlers.

(** ** A concrete platform

    Files are kept as the JSON document they hold, or as text that
    [JSON.parse] rejects.  The network has a few hosts that answer in
    different ways. *)
Module Sample.

Inductive document :=
  | Json (nodes : list node)
  | Text (text : string).

Definition parse (d : document) : completion (list node) :=
  match d with
  | Json nodes => Return nodes
  | Text _ => Throw (SyntaxError "Unexpected token")
  end.

Definition beacon (shards : Z) : BeaconBestState.t :=
  {| BeaconBestState.BeaconHeight := 100;
     BeaconBestState.BestBlockHash := "b100";
     BeaconBestState.Epoch := 3;
     BeaconBestState.ActiveShards := shards |}.

Definition shard (shardIndex : Z) : ShardBestState.t :=
  {| ShardBestState.ShardHeight := 50 + 10 * shardIndex;
     ShardBestState.BestBlockHash := "s" +:+ pretty shardIndex;
     ShardBestState.Epoch := 3;
     ShardBestState.TotalTxns := 7 |}.

Definition block (height : Z) (txs : option Z) : RawBlock.t :=
  {| RawBlock.Height := height;
     RawBlock.Hash := "h" +:+ pretty height;
     RawBlock.BlockProducer := "p" +:+ pretty height;
     RawBlock.Txs := txs;
     RawBlock.Fee := None;
     RawBlock.Reward := Some 0%Z;
     RawBlock.Time := 1000 + height |}.

Definition unreachable {A} : completion A := Throw (RpcError "connect ECONNREFUSED").

(** A node with two shards that answers every call. *)
Definition healthy : rpcClient :=
  {| GetNetworkInfo := Return ();
     GetBlockCount := λ _, Return 42%Z;
     GetBeaconBestState := Return (beacon 2);
     GetShardBestState := λ i, Return (shard i);
     GetBlocks := λ _ _, Return [block 9 (Some 4%Z); block 8 None] |}.

(** A node that does not answer. *)
Definition down : rpcClient :=
  {| GetNetworkInfo := unreachable;
     GetBlockCount := λ _, unreachable;
     GetBeaconBestState := unreachable;
     GetShardBestState := λ _, unreachable;
     GetBlocks := λ _ _, unreachable |}.

(** A node that answers the first two probes and then fails. *)
Definition flaky : rpcClient :=
  {| GetNetworkInfo := Return ();
     GetBlockCount := λ _, Return 42%Z;
     GetBeaconBestState := unreachable;
     GetShardBestState := λ _, unreachable;
     GetBlocks := λ _ _, Return [] |}.

(** A node whose shard 1 does not answer. *)
Definition partial : rpcClient :=
  {| GetNetworkInfo := Return ();
     GetBlockCount := λ _, Return 42%Z;
     GetBeaconBestState := Return (beacon 2);
     GetShardBestState := λ i, if decide (i = 1)%Z then unreachable else Return (shard i);
     GetBlocks := λ _ _, Return [] |}.

Definition network (host : string) (port : Z) : rpcClient :=
  if decide (host = "healthy") then healthy
  else if decide (host = "flaky") then flaky
  else if decide (host = "partial") then partial
  else down.

Definition platform : Platform :=
  {| Buffer := document;
     Buffer_empty := Text "";
     JSON_parse := parse;
     JSON_stringify := Json;
     ConstantRPC := network;
     dataPath := "/home/user/incognito-data";
     sampleDataPath := "/app/data.sample" |}.

(** The file system that holds the record of [nodes] and nothing else. *)
Definition store (nodes : list node) : gmap string (@Buffer platform) :=
  {[ "/home/user/incognito-data" := Json nodes ]}.

Definition A : node := Node "A" "healthy" 9334.
Definition B : node := Node "B" "down" 9334.
Definition F : node := Node "F" "flaky" 9334.
Definition P : node := Node "P" "partial" 9334.

End Sample.

(** ** [getBlock] *)

(** What [getBlock] replies with: the fields of the retrieved block as
    they come, with no default for a missing one. *)
Module BlockDetail.
Record t := Make {
  height : Z;
  hash : string;
  producer : string;
  tXS : option Z;
  fee : option Z;
  reward : option Z;
}.
End BlockDetail.

(** [RetrieveBlock host port hash verbosity] is the method
    [RetrieveBlock(hash, verbosity)] of the [ConstantRPC] object built for
    [host] and [port]. *)
Class BlockRpc := {
  RetrieveBlock : string → Z → string → Z → completion RawBlock.t;
}.

Section BlockHandler.
Context `{Platform} `{BlockRpc}.

Definition getBlock (nodeName blockHash : string) : stmt files BlockDetail.t :=
  let* nodes := readNodes in
  let node := find (λ item, bool_decide (name item = nodeName)) nodes in
  let* host := prop node host in
  let* port := prop node port in
  let* block := await (RetrieveBlock host port blockHash 1) in
  ret {| BlockDetail.height := RawBlock.Height block;
         BlockDetail.hash := RawBlock.Hash block;
         BlockDetail.producer := RawBlock.BlockProducer block;
         BlockDetail.tXS := RawBlock.Txs block;
         BlockDetail.fee := RawBlock.Fee block;
         BlockDetail.reward := RawBlock.Reward block |}.

End BlockHandler.

(** ** The window and the life of the application *)

(** The variable [mainWindow]: not yet assigned, [null], or the window,
    which is shown or hidden. *)
Inductive windowRef :=
  | WindowUndefined
  | WindowNull
  | Window (visible : bool).

(** The two module-level variables. *)
Record appState := AppState {
  mainWindow : windowRef;
  willQuitApp : bool;
}.

Definition initialState : appState :=
  {| mainWindow := WindowUndefined; willQuitApp := false |}.

(** The events that [index.js] listens to: the three of [app], and [close]
    of the window. *)
Inductive appEvent := Ready | Activate | BeforeQuit | Close.

(** [createWindow]: a new window is shown, and is focused. *)
Definition createWindow : stmt appState () :=
  modify (λ st, {| mainWindow := Window true; willQuitApp := willQuitApp st |}).

(** [() => mainWindow.show()] *)
Definition onActivate : stmt appState () :=
  let* st := get in
  match mainWindow st with
  | Window _ =>
      modify (λ st, {| mainWindow := Window true; willQuitApp := willQuitApp st |})
  | WindowUndefined | WindowNull =>
      throw (TypeError "Cannot read property of undefined")
  end.

(** [() => willQuitApp = true] *)
Definition onBeforeQuit : stmt appState () :=
  modify (λ st, {| mainWindow := mainWindow st; willQuitApp := true |}).

(** The listener of [close]; the result tells whether it called
    [e.preventDefault()], which keeps the window from being closed. *)
Definition onClose : stmt appState bool :=
  let* st := get in
  if willQuitApp st then
    modify (λ st, {| mainWindow := WindowNull; willQuitApp := willQuitApp st |});;;
    ret false
  else
    match mainWindow st with
    | Window _ =>
        modify (λ st, {| mainWindow := Window false; willQuitApp := willQuitApp st |});;;
        ret true
    | WindowUndefined | WindowNull =>
        throw (TypeError "Cannot read property of undefined")
    end.

(** The listener that runs for an event.  Only a window emits [close]: there
    is no such event before [createWindow] or after the window is gone. *)
Definition dispatch (e : appEvent) : stmt appState () :=
  match e with
  | Ready => createWindow
  | Activate => onActivate
  | BeforeQuit => onBeforeQuit
  | Close =>
      let* st := get in
      match mainWindow st with
      | Window _ => onClose;;; ret ()
      | WindowUndefined | WindowNull => ret ()
      end
  end.

(** A sequence of events, up to the first listener that throws. *)
Fixpoint runEvents (events : list appEvent) : stmt appState () :=
  match events with
  | [] => ret ()
  | e :: events => dispatch e;;; runEvents events
  end.

(** ** Further notions *)

Section Notions.
Context `{Platform}.

(** The data file exists and holds a list of endpoints. *)
Definition readable (fs : files) : Prop :=
  ∃ nodes, readNodes fs = (fs, Return nodes).

(** The name that [getChains] and [getBlocks] give to the chain of index
    [index]. *)
Definition chainName (index : Z) : string :=
  if decide (index = -1)%Z then "Beacon" else "Shard " +:+ pretty (index + 1)%Z.

End Notions.

(** A second concrete platform part: the blocks that can be retrieved. *)
Module SampleBlocks.

Definition retrieve (host : string) (port : Z) (hash : string) (verbosity : Z)
    : completion RawBlock.t :=
  if decide (host = "healthy") then
    if decide (hash = "h9") then Return (Sample.block 9 (Some 4%Z))
    else if decide (hash = "h8") then Return (Sample.block 8 None)
    else Throw (RpcError "block not found")
  else Sample.unreachable.

Definition blockRpc : BlockRpc := {| RetrieveBlock := retrieve |}.

End SampleBlocks.

(** ** Properties *)

(** *** lodash: [orderBy] sorts, permutes and commutes with maps *)

Lemma insertBy_Permutation {A} (key : A → Z) x l : insertBy key x l ≡ₚ x :: l.
Proof.
  induction l as [|y l IH]; simpl; [done|].
  destruct (key y <? key x)%Z; [|done].
  rewrite IH. apply perm_swap.
Qed.

Lemma orderBy_Permutation {A} (key : A → Z) l : orderBy key l ≡ₚ l.
Proof.
  induction l as [|x l IH]; simpl; [done|].
  by rewrite insertBy_Permutation, IH.
Qed.

Lemma insertBy_sorted (x : Z) l :
  StronglySorted Z.le l → StronglySorted Z.le (insertBy id x l).
Proof.
  induction 1 as [|y l Hl IH Hy]; simpl.
  - repeat constructor.
  - destruct (Z.ltb_spec y x) as [Hlt|Hge].
    + constructor; [done|].
      rewrite insertBy_Permutation. constructor; [lia|done].
    + constructor; [by constructor|].
      constructor; [done|].
      eapply Forall_impl; [exact Hy|]. intros z Hz; simpl in *. lia.
Qed.

Lemma orderBy_sorted (l : list Z) : StronglySorted Z.le (orderBy id l).
Proof.
  induction l as [|x l IH]; simpl; [constructor|].
  by apply insertBy_sorted.
Qed.

(** A stable sort only looks at the keys, and the keys need to agree only on
    the elements of the list. *)
Lemma orderBy_fmap {A B} (f : A → B) (keyA : A → Z) (keyB : B → Z) l :
  (∀ a, a ∈ l → keyB (f a) = keyA a) →
  orderBy keyB (f <$> l) = f <$> orderBy keyA l.
Proof.
  induction l as [|x l IH]; intros Hkey; csimpl; [done|].
  rewrite IH by (intros a Ha; apply Hkey; by right).
  assert (Hx : keyB (f x) = keyA x) by (apply Hkey; by left).
  assert (Hl : ∀ a, a ∈ orderBy keyA l → keyB (f a) = keyA a).
  { intros a Ha. apply Hkey. right. by rewrite <-(orderBy_Permutation keyA l). }
  clear IH Hkey. induction (orderBy keyA l) as [|y k IHk]; csimpl; [done|].
  rewrite Hx, (Hl y) by (by left).
  destruct (keyA y <? keyA x)%Z; csimpl; [|done].
  f_equal. apply IHk. intros a Ha. apply Hl. by right.
Qed.

(** Sorting a list of distinct integers gives the one ascending list with
    these elements. *)
Lemma orderBy_ascending (l sorted : list Z) :
  l ≡ₚ sorted → StronglySorted Z.le sorted → orderBy id l = sorted.
Proof.
  intros Hperm Hsorted.
  apply (StronglySorted_unique Z.le); [apply orderBy_sorted|done|].
  by rewrite orderBy_Permutation.
Qed.

Lemma seqZ_strictly_sorted m n : StronglySorted Z.lt (seqZ m n).
Proof.
  destruct (decide (n ≤ 0)%Z) as [Hn|Hn]; [rewrite seqZ_nil by done; constructor|].
  rewrite <-(Z2Nat.id n) by lia.
  generalize (Z.to_nat n) as k. clear. intros k. revert m.
  induction k as [|k IH]; intros m.
  - rewrite seqZ_nil by lia. constructor.
  - rewrite seqZ_cons by lia.
    replace (Z.pred (Z.of_nat (S k))) with (Z.of_nat k) by lia.
    constructor; [apply IH|].
    apply Forall_forall. intros x Hx. apply elem_of_seqZ in Hx. lia.
Qed.

Lemma seqZ_sorted m n : StronglySorted Z.le (seqZ m n).
Proof.
  induction (seqZ_strictly_sorted m n) as [|x l _ IH Hx]; constructor; [done|].
  eapply Forall_impl; [exact Hx|]. intros y. apply Z.lt_le_incl.
Qed.

Lemma range_up (n : nat) : range 0 (Z.of_nat n) = seqZ 0 (Z.of_nat n).
Proof.
  unfold range. destruct (Z.ltb_spec 0 (Z.of_nat n)) as [Hn|Hn].
  - f_equal; lia.
  - replace (Z.of_nat n) with 0%Z by lia. done.
Qed.

(** *** The store and the probes *)

Lemma filter_name_absent (nodeName : string) (nodes : list node) :
  nodeName ∉ name <$> nodes →
  filter (λ node, name node ≠ nodeName) nodes = nodes.
Proof.
  induction nodes as [|node nodes IH]; [done|].
  rewrite fmap_cons, not_elem_of_cons. intros [Hne Habsent].
  rewrite filter_cons_True by done. f_equal. by apply IH.
Qed.

Section Properties.
Context `{Platform}.

(** What the runtime's JSON codec is relied on for: a list of endpoints
    that was written with [JSON.stringify] is read back by [JSON.parse]. *)
Hypothesis JSON_round_trip : ∀ nodes, JSON_parse (JSON_stringify nodes) = Return nodes.

Ltac run :=
  unfold readNodes, readFileSync, writeFileSync, existsSync,
    prop, bind, try_catch, ret, throw, await, get, modify; simpl.

Lemma readNodes_lookup fs :
  readNodes fs =
    (fs, match fs !! dataPath with
         | Some data => JSON_parse data
         | None => Throw (ENOENT dataPath)
         end).
Proof. run. by destruct (fs !! dataPath). Qed.

Lemma readNodes_written fs nodes :
  readNodes (<[dataPath := JSON_stringify nodes]> fs) =
    (<[dataPath := JSON_stringify nodes]> fs, Return nodes).
Proof. by rewrite readNodes_lookup, lookup_insert_eq, JSON_round_trip. Qed.

Lemma readNodes_exists fs nodes :
  readNodes fs = (fs, Return nodes) → is_Some (fs !! dataPath).
Proof.
  rewrite readNodes_lookup. destruct (fs !! dataPath); [eauto|].
  intros [=].
Qed.

(** [nodeWithStatus], one case for each place where the [try] can end. *)
Lemma nodeWithStatus_unfold node :
  let rpc := ConstantRPC (host node) (port node) in
  nodeWithStatus node =
    Return
      match GetNetworkInfo rpc with
      | Throw _ => NodeStatus node OFFLINE None None
      | Return _ =>
          match GetBlockCount rpc 0 with
          | Throw _ => NodeStatus node OFFLINE None None
          | Return count =>
              match GetBeaconBestState rpc with
              | Throw _ => NodeStatus node OFFLINE (Some count) None
              | Return state =>
                  NodeStatus node ONLINE (Some count)
                    (Some (BeaconBestState.BeaconHeight state))
              end
          end
      end.
Proof.
  unfold nodeWithStatus, nodeWithStatus_body. run.
  destruct (GetNetworkInfo _); [|done].
  destruct (GetBlockCount _ _); [|done].
  by destruct (GetBeaconBestState _).
Qed.

Lemma nodeWithStatus_returns node :
  ∃ fullNode, nodeWithStatus node = Return fullNode ∧ endpoint fullNode = node.
Proof.
  rewrite nodeWithStatus_unfold. eexists; split; [done|].
  destruct (GetNetworkInfo _); [|done].
  destruct (GetBlockCount _ _); [|done].
  by destruct (GetBeaconBestState _).
Qed.

Lemma Promise_all_nodeWithStatus nodes :
  ∃ statuses,
    Promise_all (nodeWithStatus <$> nodes) = Return statuses ∧
    endpoint <$> statuses = nodes.
Proof.
  induction nodes as [|node nodes (statuses & Hall & Hendpoints)]; csimpl.
  - by exists [].
  - destruct (nodeWithStatus_returns node) as (fullNode & -> & Hnode).
    rewrite Hall. exists (fullNode :: statuses). csimpl. by rewrite Hnode, Hendpoints.
Qed.

(** C1. When [GetNetworkInfo], [GetBlockCount] and [GetBeaconBestState]
    all succeed for an endpoint, [nodeWithStatus] returns the endpoint's
    own fields with [status] ONLINE, [totalBlocks] the block count and
    [beaconHeight] the [BeaconHeight] of the best-state answer. *)
Theorem nodeWithStatus_online node info count state :
  GetNetworkInfo (ConstantRPC (host node) (port node)) = Return info →
  GetBlockCount (ConstantRPC (host node) (port node)) 0 = Return count →
  GetBeaconBestState (ConstantRPC (host node) (port node)) = Return state →
  nodeWithStatus node =
    Return {| endpoint := node;
              status := ONLINE;
              totalBlocks := Some count;
              beaconHeight := Some (BeaconBestState.BeaconHeight state) |}.
Proof.
  intros Hinfo Hcount Hstate.
  by rewrite nodeWithStatus_unfold, Hinfo, Hcount, Hstate.
Qed.

(** C2, as it holds of the code.  When one of the three probe calls throws,
    [nodeWithStatus] does not throw: it returns the endpoint's fields with
    [status] OFFLINE and [beaconHeight] undefined.  [totalBlocks] is
    undefined when [GetNetworkInfo] or [GetBlockCount] is the call that
    throws, and is the block count when these two succeed and only
    [GetBeaconBestState] throws.  A batch over many endpoints therefore
    yields one record for each endpoint. *)
Theorem nodeWithStatus_offline node :
  probeFails (ConstantRPC (host node) (port node)) →
  (∃ fullNode,
    nodeWithStatus node = Return fullNode ∧
    endpoint fullNode = node ∧
    status fullNode = OFFLINE ∧
    beaconHeight fullNode = None ∧
    totalBlocks fullNode =
      match GetNetworkInfo (ConstantRPC (host node) (port node)),
            GetBlockCount (ConstantRPC (host node) (port node)) 0 with
      | Return _, Return count => Some count
      | _, _ => None
      end) ∧
  (∀ nodes, ∃ statuses,
    Promise_all (nodeWithStatus <$> nodes) = Return statuses ∧
    endpoint <$> statuses = nodes).
Proof.
  intros Hfails. split; [|apply Promise_all_nodeWithStatus].
  rewrite nodeWithStatus_unfold. eexists; split; [done|].
  destruct Hfails as [[e He]|[[e He]|[e He]]]; rewrite He.
  - done.
  - by destruct (GetNetworkInfo _).
  - destruct (GetNetworkInfo _); [|done]. by destruct (GetBlockCount _ _).
Qed.

Lemma addNode_unfold fs nodes newNode :
  readNodes fs = (fs, Return nodes) →
  addNode newNode fs =
    (<[dataPath := JSON_stringify (nodes ++ [newNode])]> fs,
     match nodeWithStatus newNode with
     | Return fullNode => Return (Some fullNode)
     | Throw e => Throw e
     end).
Proof.
  intros Hread. unfold addNode, bind at 1. rewrite Hread. run.
  by destruct (nodeWithStatus newNode).
Qed.

Lemma deleteNode_unfold fs nodes nodeName :
  readNodes fs = (fs, Return nodes) →
  deleteNode nodeName fs =
    (<[dataPath := JSON_stringify (filter (λ node, name node ≠ nodeName) nodes)]> fs,
     Return (Some nodeName)).
Proof. intros Hread. unfold deleteNode, bind at 1. by rewrite Hread. Qed.

Lemma getNodes_unfold fs nodes :
  readNodes fs = (fs, Return nodes) →
  getNodes fs = (fs, Promise_all (nodeWithStatus <$> nodes)).
Proof.
  intros Hread. unfold getNodes, bind at 1, existsSync.
  rewrite bool_decide_eq_true_2 by (by eapply readNodes_exists).
  unfold bind. by rewrite Hread.
Qed.

(** C6. On a store that holds [nodes], [addNode newNode] followed by a
    listing gives [nodes] in their order followed by [newNode], appended
    once: this is what the store then holds and what [getNodes] replies
    with, one status record for each endpoint. *)
Theorem addNode_then_list fs nodes newNode :
  readNodes fs = (fs, Return nodes) →
  ∃ fs' fullNode statuses,
    addNode newNode fs = (fs', Return (Some fullNode)) ∧
    readNodes fs' = (fs', Return (nodes ++ [newNode])) ∧
    getNodes fs' = (fs', Return statuses) ∧
    endpoint <$> statuses = nodes ++ [newNode] ∧
    length statuses = S (length nodes).
Proof.
  intros Hread.
  destruct (nodeWithStatus_returns newNode) as (fullNode & HfullNode & _).
  destruct (Promise_all_nodeWithStatus (nodes ++ [newNode])) as (statuses & Hall & Hends).
  eexists _, fullNode, statuses.
  rewrite (addNode_unfold _ _ _ Hread), HfullNode.
  split; [done|]. split; [apply readNodes_written|].
  rewrite (getNodes_unfold _ _ (readNodes_written _ _)), Hall.
  repeat split; [done|].
  rewrite <-(length_fmap endpoint), Hends, length_app. simpl. lia.
Qed.

(** C7. On a store that holds [nodes], [deleteNode nodeName] keeps exactly
    the endpoints whose name is not [nodeName], in their order.  When no
    endpoint has that name the list stays as it was and the handler still
    replies; deleting a second time changes nothing. *)
Theorem deleteNode_removes fs nodes nodeName :
  readNodes fs = (fs, Return nodes) →
  let nodes' := filter (λ node, name node ≠ nodeName) nodes in
  ∃ fs',
    deleteNode nodeName fs = (fs', Return (Some nodeName)) ∧
    readNodes fs' = (fs', Return nodes') ∧
    (∀ node, node ∈ nodes' ↔ node ∈ nodes ∧ name node ≠ nodeName) ∧
    nodes' `sublist_of` nodes ∧
    (nodeName ∉ name <$> nodes → nodes' = nodes) ∧
    deleteNode nodeName fs' = (fs', Return (Some nodeName)).
Proof.
  intros Hread nodes'. eexists.
  split; [by apply deleteNode_unfold|].
  split; [apply readNodes_written|].
  split; [intros node; unfold nodes'; rewrite list_elem_of_filter; tauto|].
  split; [apply sublist_filter|].
  split.
  - apply filter_name_absent.
  - rewrite (deleteNode_unfold _ _ _ (readNodes_written _ _)).
    rewrite insert_insert_eq.
    replace (filter (λ node, name node ≠ nodeName) nodes') with nodes'; [done|].
    unfold nodes'. rewrite list_filter_filter.
    apply list_filter_iff. tauto.
Qed.

(** C8. Exporting the persisted record to a destination (a path of its
    own, other than the record's) and importing that destination again
    leaves the record as it was, byte for byte: the export puts the same
    bytes at the destination, and the import puts at [dataPath] whatever
    bytes the chosen file holds. *)
Theorem export_then_import fs record destination :
  fs !! dataPath = Some record →
  destination ≠ "" →
  destination ≠ dataPath →
  ∃ fs1 fs2,
    exportNodes (Some destination) fs = (fs1, Return "success") ∧
    fs1 !! destination = Some record ∧
    fs1 !! dataPath = Some record ∧
    importNodes (Some [destination]) fs1 = (fs2, Return "success") ∧
    fs2 !! dataPath = Some record ∧
    readNodes fs2 = (fs2, JSON_parse record) ∧
    (∀ fs', fs' !! destination = Some record →
       (importNodes (Some [destination]) fs').1 !! dataPath = Some record).
Proof.
  intros Hrecord Hpath Hfresh.
  assert (Himport : ∀ fs', fs' !! destination = Some record →
    importNodes (Some [destination]) fs' = (<[dataPath := record]> fs', Return "success")).
  { intros fs' Hdest. unfold importNodes, pipe. run.
    rewrite Hdest. by rewrite decide_False by done. }
  eexists (<[destination := record]> fs), _.
  split.
  { unfold exportNodes, pipe. rewrite decide_False by done. run.
    rewrite Hrecord. by rewrite decide_False by done. }
  split; [apply lookup_insert_eq|].
  split; [by rewrite lookup_insert_ne|].
  split; [apply Himport, lookup_insert_eq|].
  split; [apply lookup_insert_eq|].
  split; [by rewrite readNodes_lookup, lookup_insert_eq|].
  intros fs' Hdest. rewrite (Himport _ Hdest). apply lookup_insert_eq.
Qed.

(** C9, as it holds of the code.  The store does not check names.  From a list with unique
    names, [deleteNode] always leads to a list with unique names, and
    [addNode newNode] does so exactly when no stored endpoint already has
    the name of [newNode]. *)
Theorem names_stay_unique fs nodes :
  readNodes fs = (fs, Return nodes) →
  uniqueNames nodes →
  (∀ nodeName, ∃ nodes',
     readNodes (deleteNode nodeName fs).1 = ((deleteNode nodeName fs).1, Return nodes') ∧
     uniqueNames nodes') ∧
  (∀ newNode, ∃ nodes',
     readNodes (addNode newNode fs).1 = ((addNode newNode fs).1, Return nodes') ∧
     (uniqueNames nodes' ↔ name newNode ∉ name <$> nodes)).
Proof.
  intros Hread Hunique. split.
  - intros nodeName. eexists.
    rewrite (deleteNode_unfold _ _ _ Hread). split; [apply readNodes_written|].
    unfold uniqueNames in *.
    eapply sublist_NoDup; [exact Hunique|apply fmap_sublist, sublist_filter].
  - intros newNode. eexists.
    rewrite (addNode_unfold _ _ _ Hread). split; [apply readNodes_written|].
    unfold uniqueNames in *. rewrite fmap_app, NoDup_app. simpl. split.
    + intros (_ & Hfresh & _) Hin. apply (Hfresh _ Hin). by left.
    + intros Hfresh. split; [done|]. split; [|apply NoDup_singleton].
      intros x Hx ->%list_elem_of_singleton. done.
Qed.

(** *** Chains *)

Lemma pushShards_all rpc (shards : Z → ShardBestState.t) pending chains :
  (∀ i, i ∈ pending → GetShardBestState rpc i = Return (shards i)) →
  pushShards rpc pending chains =
    Return (chains ++ ((λ i, shardChain i (shards i)) <$> pending)).
Proof.
  revert chains. induction pending as [|i pending IH]; intros chains Hall; csimpl.
  - by rewrite app_nil_r.
  - rewrite Hall by (by left). rewrite IH by (intros j Hj; apply Hall; by right).
    by rewrite <-app_assoc.
Qed.

Lemma pushShards_one_throws rpc pending chains i e :
  i ∈ pending →
  GetShardBestState rpc i = Throw e →
  ∃ e', pushShards rpc pending chains = Throw e'.
Proof.
  intros Hi Hthrow. revert chains.
  induction pending as [|j pending IH]; intros chains; [by apply elem_of_nil in Hi|].
  simpl. destruct (GetShardBestState rpc j) as [shard|e'] eqn:Hj; [|by eauto].
  apply elem_of_cons in Hi as [->|Hi]; [congruence|by apply IH].
Qed.


(** C3. For a stored node with [N] active shards whose beacon and shard
    best-state calls succeed, [getChains] replies with [N + 1] chains
    whatever the order in which the shard answers arrive: the beacon
    entry, of index [-1], followed by the entry of each shard
    [0, ..., N - 1] in ascending order of index. *)
Theorem getChains_sorted arrival fs nodes nodeName node beaconInfo (N : nat) shards :
  readNodes fs = (fs, Return nodes) →
  find (λ item, bool_decide (name item = nodeName)) nodes = Some node →
  GetBeaconBestState (ConstantRPC (host node) (port node)) = Return beaconInfo →
  BeaconBestState.ActiveShards beaconInfo = Z.of_nat N →
  (∀ i, (0 ≤ i < Z.of_nat N)%Z →
     GetShardBestState (ConstantRPC (host node) (port node)) i = Return (shards i)) →
  ∃ nodeInfo chains,
    getChains arrival nodeName fs = (fs, Return (NodeInfo nodeInfo chains)) ∧
    nodeWithStatus node = Return nodeInfo ∧
    chains = beaconChain beaconInfo
               :: ((λ i, shardChain i (shards i)) <$> seqZ 0 (Z.of_nat N)) ∧
    Chain.index <$> chains = (-1)%Z :: seqZ 0 (Z.of_nat N) ∧
    length chains = S N ∧
    StronglySorted Z.lt (Chain.index <$> chains) ∧
    length (filter (λ chain, Chain.index chain = (-1)%Z) chains) = 1%nat.
Proof.
  intros Hread Hfind Hbeacon Hactive Hshards.
  destruct (nodeWithStatus_returns node) as (nodeInfo & HnodeInfo & _).
  set (shardOf := λ i, shardChain i (shards i)).
  set (pending := orderBy arrival (range 0 (BeaconBestState.ActiveShards beaconInfo))).
  assert (Hpending : pending ≡ₚ seqZ 0 (Z.of_nat N)).
  { unfold pending. by rewrite orderBy_Permutation, Hactive, range_up. }
  assert (Hindices : Chain.index <$> (shardOf <$> seqZ 0 (Z.of_nat N)) = seqZ 0 (Z.of_nat N)).
  { rewrite <-list_fmap_compose. apply list_fmap_id. }
  exists nodeInfo, (beaconChain beaconInfo :: (shardOf <$> seqZ 0 (Z.of_nat N))).
  split; [|split; [done|split; [done|]]].
  - unfold getChains, try_catch, bind at 1. rewrite Hread, Hfind. run.
    rewrite Hbeacon. fold pending.
    rewrite (pushShards_all _ shards).
    2:{ intros i Hi. apply Hshards. rewrite Hpending in Hi.
        apply elem_of_seqZ in Hi. lia. }
    rewrite HnodeInfo. do 3 f_equal. fold shardOf.
    (* the pushed entries, seen as the image of their indices *)
    set (entry := λ i : Z, if decide (i = -1)%Z then beaconChain beaconInfo else shardOf i).
    assert (Hentry : ∀ l : list Z, (∀ i, i ∈ l → (0 ≤ i)%Z) → shardOf <$> l = entry <$> l).
    { intros l Hl. apply list_fmap_ext. intros k i Hk.
      unfold entry. rewrite decide_False; [done|].
      apply list_elem_of_lookup_2, Hl in Hk. lia. }
    assert (Hseq : ∀ i, i ∈ seqZ 0 (Z.of_nat N) → (0 ≤ i)%Z).
    { intros i Hi. apply elem_of_seqZ in Hi. lia. }
    rewrite !Hentry by (try done; intros i Hi; apply Hseq; by rewrite <-Hpending).
    change ([beaconChain beaconInfo] ++ (entry <$> pending))
      with (entry <$> ((-1)%Z :: pending)).
    change (beaconChain beaconInfo :: (entry <$> seqZ 0 (Z.of_nat N)))
      with (entry <$> ((-1)%Z :: seqZ 0 (Z.of_nat N))).
    rewrite (orderBy_fmap entry id Chain.index).
    2:{ intros i _. unfold entry. by destruct (decide (i = -1)%Z) as [->|]. }
    rewrite (orderBy_ascending _ ((-1)%Z :: seqZ 0 (Z.of_nat N))); [done| |].
    + by rewrite Hpending.
    + constructor; [apply seqZ_sorted|].
      apply Forall_forall. intros i Hi%Hseq. lia.
  - csimpl. rewrite Hindices. split; [done|]. split.
    { by rewrite length_fmap, length_seqZ, Nat2Z.id. }
    split.
    { constructor; [apply seqZ_strictly_sorted|].
      apply Forall_forall. intros i Hi%elem_of_seqZ. lia. }
    f_equal.
    apply length_zero_iff_nil, elem_of_nil_inv. intros chain Hchain.
    apply list_elem_of_filter in Hchain as [Hindex Hchain].
    apply list_elem_of_fmap in Hchain as (i & -> & Hi%elem_of_seqZ).
    simpl in Hindex. lia.
Qed.

(** C4. When a step of [getChains] fails (the store cannot be read, the
    name is not in the store, the beacon call throws, or the call for one of
    the active shards throws), the reply is [{ chains: [], name: nodeName }]:
    no chain is reported and nothing is thrown to the caller. *)
Theorem getChains_degrades arrival nodeName fs :
  chainsStepFails nodeName fs →
  getChains arrival nodeName fs = (fs, Return (NameOnly [] nodeName)).
Proof.
  intros [e Hstore|nodes Hread Hfind|nodes node e Hread Hfind Hbeacon
         |nodes node beaconInfo i e Hread Hfind Hbeacon Hi Hshard];
    unfold getChains, try_catch, bind at 1.
  - rewrite readNodes_lookup in Hstore |- *. simpl in Hstore. by rewrite Hstore.
  - by rewrite Hread, Hfind.
  - rewrite Hread, Hfind. run. by rewrite Hbeacon.
  - rewrite Hread, Hfind. run. rewrite Hbeacon.
    destruct (pushShards_one_throws (ConstantRPC (host node) (port node))
                (orderBy arrival (range 0 (BeaconBestState.ActiveShards beaconInfo)))
                [beaconChain beaconInfo] i e) as [e' ->]; [|done|done].
    by rewrite orderBy_Permutation.
Qed.

(** *** Blocks *)

Lemma getBlocks_unfold fs nodes nodeName node shardId :
  readNodes fs = (fs, Return nodes) →
  find (λ item, bool_decide (name item = nodeName)) nodes = Some node →
  getBlocks nodeName shardId fs =
    (fs, match GetBlocks (ConstantRPC (host node) (port node)) 10 shardId with
         | Return blocks =>
             match formatBlock <$> blocks with
             | latestBlock :: _ =>
                 Return {| BlockList.name :=
                             if decide (shardId = -1)%Z then "Beacon"
                             else "Shard " +:+ pretty (shardId + 1)%Z;
                           BlockList.totalBlocks := Block.height latestBlock;
                           BlockList.producer := Block.producer latestBlock;
                           BlockList.blocks := formatBlock <$> blocks |}
             | [] => Throw (TypeError "Cannot read property of undefined")
             end
         | Throw e => Throw e
         end).
Proof.
  intros Hread Hfind. unfold getBlocks, bind at 1. rewrite Hread, Hfind. run.
  destruct (GetBlocks _ _ _) as [blocks|e]; [|done].
  by destruct blocks.
Qed.

(** C5. For a batch with at least one block, [getBlocks] replies with one
    summary for each raw block, in which a missing [Txs], [Fee] or [Reward]
    is [0] and a present one is kept, and takes [totalBlocks] and [producer]
    from the height and the producer of the first block of the batch. *)
Theorem getBlocks_summaries fs nodes nodeName node shardId first rest :
  readNodes fs = (fs, Return nodes) →
  find (λ item, bool_decide (name item = nodeName)) nodes = Some node →
  GetBlocks (ConstantRPC (host node) (port node)) 10 shardId = Return (first :: rest) →
  (∃ chain,
    getBlocks nodeName shardId fs = (fs, Return chain) ∧
    BlockList.totalBlocks chain = RawBlock.Height first ∧
    BlockList.producer chain = RawBlock.BlockProducer first ∧
    BlockList.blocks chain = formatBlock <$> (first :: rest)) ∧
  (∀ block,
    (RawBlock.Txs block = None → Block.tXS (formatBlock block) = 0%Z) ∧
    (RawBlock.Fee block = None → Block.fee (formatBlock block) = 0%Z) ∧
    (RawBlock.Reward block = None → Block.reward (formatBlock block) = 0%Z) ∧
    (∀ n, RawBlock.Txs block = Some n → Block.tXS (formatBlock block) = n) ∧
    (∀ n, RawBlock.Fee block = Some n → Block.fee (formatBlock block) = n) ∧
    (∀ n, RawBlock.Reward block = Some n → Block.reward (formatBlock block) = n) ∧
    Block.height (formatBlock block) = RawBlock.Height block ∧
    Block.hash (formatBlock block) = RawBlock.Hash block ∧
    Block.producer (formatBlock block) = RawBlock.BlockProducer block ∧
    Block.time (formatBlock block) = RawBlock.Time block).
Proof.
  intros Hread Hfind Hblocks. split.
  - eexists. rewrite (getBlocks_unfold _ _ _ _ _ Hread Hfind), Hblocks. by csimpl.
  - intros block.
    assert (Hsome : ∀ n, or_default (Some n) 0 = n).
    { intros n. simpl. destruct (Z.eqb_spec n 0); congruence. }
    unfold formatBlock; simpl.
    repeat split; try (by intros ->); by intros n ->.
Qed.

(** C10. When [GetBlocks] resolves with an empty batch, [getBlocks] does
    not reply with a chain that has an empty block list: reading [height]
    of the first summary, which is [undefined], throws a [TypeError]. *)
Theorem getBlocks_empty_batch fs nodes nodeName node shardId :
  readNodes fs = (fs, Return nodes) →
  find (λ item, bool_decide (name item = nodeName)) nodes = Some node →
  GetBlocks (ConstantRPC (host node) (port node)) 10 shardId = Return [] →
  ∃ msg, getBlocks nodeName shardId fs = (fs, Throw (TypeError msg)).
Proof.
  intros Hread Hfind Hblocks.
  rewrite (getBlocks_unfold _ _ _ _ _ Hread Hfind), Hblocks. by eexists.
Qed.

End Properties.

(** ** The properties on the concrete platform *)

Section Examples.
Import Sample.
#[local] Existing Instance platform.

Lemma sample_round_trip (nodes : list node) :
  JSON_parse (JSON_stringify nodes) = Return nodes.
Proof. reflexivity. Defined.

(** C1 on the healthy node. *)
Lemma nodeWithStatus_online_witness :
  nodeWithStatus A =
    Return {| endpoint := A; status := ONLINE;
              totalBlocks := Some 42%Z; beaconHeight := Some 100%Z |}.
Proof.
  apply (nodeWithStatus_online A () 42%Z (beacon 2)); reflexivity.
Defined.

(** C2 as stated fails on the node that answers the first two probes and
    then fails: a probe throws, and [totalBlocks] is defined. *)
Lemma nodeWithStatus_offline_counterexample :
  probeFails (ConstantRPC (host F) (port F)) ∧
  nodeWithStatus F =
    Return {| endpoint := F; status := OFFLINE;
              totalBlocks := Some 42%Z; beaconHeight := None |} ∧
  ¬ ∃ fullNode,
      nodeWithStatus F = Return fullNode ∧
      status fullNode = OFFLINE ∧
      totalBlocks fullNode = None ∧
      beaconHeight fullNode = None.
Proof.
  split; [|split].
  - right; right. by eexists.
  - reflexivity.
  - intros (fullNode & Hreturn & _ & Htotal & _).
    vm_compute in Hreturn. injection Hreturn as <-. discriminate Htotal.
Qed.

(** The same node satisfies C2 in the form that holds of the code. *)
Lemma nodeWithStatus_offline_witness :
  (∃ fullNode,
    nodeWithStatus F = Return fullNode ∧
    endpoint fullNode = F ∧
    status fullNode = OFFLINE ∧
    beaconHeight fullNode = None ∧
    totalBlocks fullNode = Some 42%Z) ∧
  (∀ nodes, ∃ statuses,
    Promise_all (nodeWithStatus <$> nodes) = Return statuses ∧
    endpoint <$> statuses = nodes).
Proof.
  refine (nodeWithStatus_offline F _). right; right. by eexists.
Defined.

(** C3 on the healthy node, whose second shard answers first. *)
Lemma getChains_sorted_witness :
  ∃ nodeInfo chains,
    getChains (λ i, - i)%Z "A" (store [B; A]) =
      (store [B; A], Return (NodeInfo nodeInfo chains)) ∧
    nodeWithStatus A = Return nodeInfo ∧
    chains = beaconChain (beacon 2)
               :: ((λ i, shardChain i (shard i)) <$> seqZ 0 (Z.of_nat 2)) ∧
    Chain.index <$> chains = (-1)%Z :: seqZ 0 (Z.of_nat 2) ∧
    length chains = 3%nat ∧
    StronglySorted Z.lt (Chain.index <$> chains) ∧
    length (filter (λ chain, Chain.index chain = (-1)%Z) chains) = 1%nat.
Proof.
  apply (getChains_sorted (λ i, - i)%Z (store [B; A]) [B; A] "A" A
           (beacon 2) 2 shard); reflexivity.
Defined.

(** C4 on the node whose shard 1 does not answer. *)
Lemma getChains_degrades_witness :
  getChains id "P" (store [A; P]) = (store [A; P], Return (NameOnly [] "P")).
Proof.
  apply getChains_degrades.
  apply (shard_fails "P" (store [A; P]) [A; P] P (beacon 2) 1%Z
           (RpcError "connect ECONNREFUSED")); try reflexivity.
  vm_compute. right. left.
Defined.

(** C5 on the healthy node. *)
Lemma getBlocks_summaries_witness :
  ∃ chain,
    getBlocks "A" 0 (store [B; A]) = (store [B; A], Return chain) ∧
    BlockList.totalBlocks chain = 9%Z ∧
    BlockList.producer chain = "p9" ∧
    BlockList.blocks chain = formatBlock <$> [block 9 (Some 4%Z); block 8 None].
Proof.
  apply (getBlocks_summaries (store [B; A]) [B; A] "A" A 0%Z
           (block 9 (Some 4%Z)) [block 8 None]); reflexivity.
Defined.

(** C6 on a store that holds one endpoint. *)
Lemma addNode_then_list_witness :
  ∃ fs' fullNode statuses,
    addNode A (store [B]) = (fs', Return (Some fullNode)) ∧
    readNodes fs' = (fs', Return [B; A]) ∧
    getNodes fs' = (fs', Return statuses) ∧
    endpoint <$> statuses = [B; A] ∧
    length statuses = 2%nat.
Proof.
  apply (addNode_then_list sample_round_trip (store [B]) [B] A). reflexivity.
Defined.

(** C7: the scenario of the specification, a store that holds only ["A"]. *)
Lemma deleteNode_removes_witness :
  ∃ fs',
    deleteNode "A" (store [A]) = (fs', Return (Some "A")) ∧
    readNodes fs' = (fs', Return []) ∧
    (∀ node, node ∈ [] ↔ node ∈ [A] ∧ name node ≠ "A") ∧
    [] `sublist_of` [A] ∧
    ("A" ∉ name <$> [A] → [] = [A]) ∧
    deleteNode "A" fs' = (fs', Return (Some "A")).
Proof.
  apply (deleteNode_removes sample_round_trip (store [A]) [A] "A"). reflexivity.
Defined.

(** C8 on a store that holds two endpoints. *)
Lemma export_then_import_witness :
  ∃ fs1 fs2,
    exportNodes (Some "/tmp/nodes.json") (store [B; A]) = (fs1, Return "success") ∧
    fs1 !! "/tmp/nodes.json" = Some (Json [B; A]) ∧
    fs1 !! dataPath = Some (Json [B; A]) ∧
    importNodes (Some ["/tmp/nodes.json"]) fs1 = (fs2, Return "success") ∧
    fs2 !! dataPath = Some (Json [B; A]) ∧
    readNodes fs2 = (fs2, Return [B; A]) ∧
    (∀ fs', fs' !! "/tmp/nodes.json" = Some (Json [B; A]) →
       (importNodes (Some ["/tmp/nodes.json"]) fs').1 !! dataPath = Some (Json [B; A])).
Proof.
  apply (export_then_import (store [B; A]) (Json [B; A]) "/tmp/nodes.json");
    [reflexivity|discriminate|discriminate].
Defined.

(** C9 as stated fails: adding an endpoint named ["A"] twice to the empty
    store leads to a store with two endpoints of that name. *)
Lemma names_unique_counterexample :
  let fs := (addNode A (addNode A (store [])).1).1 in
  readNodes (store []) = (store [], Return []) ∧
  uniqueNames [] ∧
  reachable (store []) fs ∧
  readNodes fs = (fs, Return [A; A]) ∧
  ¬ uniqueNames [A; A].
Proof.
  split; [reflexivity|]. split; [constructor|]. split; [|split].
  - do 2 apply reachable_add. apply reachable_start.
  - reflexivity.
  - unfold uniqueNames. intros Hunique. apply NoDup_cons in Hunique as [Hfresh _].
    apply Hfresh. by left.
Qed.

(** C9 in the form that holds of the code, on a store that holds ["A"]
    and ["B"]. *)
Lemma names_stay_unique_witness :
  (∀ nodeName, ∃ nodes',
     readNodes (deleteNode nodeName (store [A; B])).1 =
       ((deleteNode nodeName (store [A; B])).1, Return nodes') ∧
     uniqueNames nodes') ∧
  (∀ newNode, ∃ nodes',
     readNodes (addNode newNode (store [A; B])).1 =
       ((addNode newNode (store [A; B])).1, Return nodes') ∧
     (uniqueNames nodes' ↔ name newNode ∉ name <$> [A; B])).
Proof.
  apply (names_stay_unique sample_round_trip (store [A; B]) [A; B]); [reflexivity|].
  unfold uniqueNames. simpl. apply NoDup_cons. split.
  - intros Hin%list_elem_of_singleton. discriminate Hin.
  - apply NoDup_singleton.
Defined.

(** C10 on the node whose [GetBlocks] resolves with no block. *)
Lemma getBlocks_empty_batch_witness :
  ∃ msg, getBlocks "F" (-1) (store [A; F]) = (store [A; F], Throw (TypeError msg)).
Proof.
  apply (getBlocks_empty_batch (store [A; F]) [A; F] "F" F (-1)%Z); reflexivity.
Defined.

End Examples.

(** ** Further properties of the handlers *)

Section MoreProperties.
Context `{Platform}.

Hypothesis JSON_round_trip : ∀ nodes, JSON_parse (JSON_stringify nodes) = Return nodes.

Ltac run :=
  unfold readNodes, readFileSync, writeFileSync, existsSync,
    prop, bind, try_catch, ret, throw, await, get, modify; simpl.

(** *** Helper lemmas *)

Lemma readNodes_files fs : (readNodes fs).1 = fs.
Proof. by rewrite readNodes_lookup. Qed.

Lemma readNodes_cases fs :
  (∃ nodes, readNodes fs = (fs, Return nodes)) ∨ (∃ e, readNodes fs = (fs, Throw e)).
Proof.
  rewrite readNodes_lookup.
  destruct (match fs !! dataPath with Some _ => _ | None => _ end); eauto.
Qed.

Lemma readNodes_throws fs e :
  (readNodes fs).2 = Throw e → readNodes fs = (fs, Throw e).
Proof. rewrite readNodes_lookup. simpl. by intros ->. Qed.

Lemma addNode_throws fs newNode e :
  readNodes fs = (fs, Throw e) → addNode newNode fs = (fs, Throw e).
Proof. intros Hread. unfold addNode, bind at 1. by rewrite Hread. Qed.

Lemma deleteNode_throws fs nodeName e :
  readNodes fs = (fs, Throw e) → deleteNode nodeName fs = (fs, Throw e).
Proof. intros Hread. unfold deleteNode, bind at 1. by rewrite Hread. Qed.

Lemma addNode_files fs nodes newNode :
  readNodes fs = (fs, Return nodes) →
  (addNode newNode fs).1 = <[dataPath := JSON_stringify (nodes ++ [newNode])]> fs.
Proof. intros Hread. by rewrite (addNode_unfold _ _ _ Hread). Qed.

Lemma deleteNode_files fs nodes nodeName :
  readNodes fs = (fs, Return nodes) →
  (deleteNode nodeName fs).1 =
    <[dataPath := JSON_stringify (filter (λ node, name node ≠ nodeName) nodes)]> fs.
Proof. intros Hread. by rewrite (deleteNode_unfold _ _ _ Hread). Qed.

Lemma find_name_app (nodeName : string) (nodes others : list node) node :
  find (λ item, bool_decide (name item = nodeName)) nodes = Some node →
  find (λ item, bool_decide (name item = nodeName)) (nodes ++ others) = Some node.
Proof.
  induction nodes as [|item nodes IH]; simpl; [done|].
  by destruct (bool_decide (name item = nodeName)).
Qed.

Lemma find_name_deleted (nodeName : string) (nodes : list node) :
  find (λ item, bool_decide (name item = nodeName))
       (filter (λ node, name node ≠ nodeName) nodes) = None.
Proof.
  induction nodes as [|item nodes IH]; [done|].
  rewrite filter_cons. destruct (decide (name item ≠ nodeName)) as [Hne|Heq]; [|done].
  simpl. by rewrite bool_decide_eq_false_2.
Qed.


(** *** The probes *)

(** X1. The record that [nodeWithStatus] returns is ONLINE exactly when all
    three probes resolve; [beaconHeight] is defined exactly when the record
    is ONLINE, and [totalBlocks] exactly when the first two probes resolve. *)
Theorem nodeWithStatus_fields node :
  ∃ fullNode,
    nodeWithStatus node = Return fullNode ∧
    (status fullNode = ONLINE ↔
       ∃ info count state,
         GetNetworkInfo (ConstantRPC (host node) (port node)) = Return info ∧
         GetBlockCount (ConstantRPC (host node) (port node)) 0 = Return count ∧
         GetBeaconBestState (ConstantRPC (host node) (port node)) = Return state) ∧
    (is_Some (beaconHeight fullNode) ↔ status fullNode = ONLINE) ∧
    (is_Some (totalBlocks fullNode) ↔
       ∃ info count,
         GetNetworkInfo (ConstantRPC (host node) (port node)) = Return info ∧
         GetBlockCount (ConstantRPC (host node) (port node)) 0 = Return count).
Proof.
  rewrite nodeWithStatus_unfold. eexists; split; [done|].
  destruct (GetNetworkInfo _) as [info|e1]; [destruct (GetBlockCount _ _) as [count|e2];
    [destruct (GetBeaconBestState _) as [state|e3]|]|]; simpl;
    split_and!; try (by eauto); split; try done;
    try (by intros [? [=]]); try (by intros (? & ? & ? & ? & ? & ?));
    try (by intros (? & ? & ? & ?)).
  all: intros _; by repeat eexists.
Qed.

(** *** The store *)

(** X2. When the store cannot be read (no data file yet, or a file that is
    not JSON), [addNode] and [deleteNode] throw the error of the read, reply
    nothing and write nothing; without a data file the error is [ENOENT]. *)
Theorem unreadable_store_untouched fs e newNode nodeName :
  (readNodes fs).2 = Throw e →
  addNode newNode fs = (fs, Throw e) ∧
  deleteNode nodeName fs = (fs, Throw e) ∧
  (fs !! dataPath = None → e = ENOENT dataPath).
Proof.
  intros Hread. pose proof (readNodes_throws _ _ Hread) as Hthrows.
  split; [by apply addNode_throws|]. split; [by apply deleteNode_throws|].
  intros Hnone. rewrite readNodes_lookup, Hnone in Hread. simpl in Hread. congruence.
Qed.

Lemma reachable_other_files fs0 fs path :
  reachable fs0 fs → path ≠ dataPath → fs !! path = fs0 !! path.
Proof.
  intros Hreach Hpath. induction Hreach as [|fs newNode _ IH|fs nodeName _ IH]; [done| |].
  - destruct (readNodes_cases fs) as [[nodes Hread]|[e Hread]].
    + by rewrite (addNode_files _ _ _ Hread), lookup_insert_ne.
    + by rewrite (addNode_throws _ _ _ Hread).
  - destruct (readNodes_cases fs) as [[nodes Hread]|[e Hread]].
    + by rewrite (deleteNode_files _ _ _ Hread), lookup_insert_ne.
    + by rewrite (deleteNode_throws _ _ _ Hread).
Qed.

Lemma reachable_readable fs0 fs :
  reachable fs0 fs → readable fs0 → readable fs.
Proof.
  intros Hreach Hreadable.
  induction Hreach as [|fs newNode _ [nodes Hread]|fs nodeName _ [nodes Hread]]; [done| |].
  - rewrite (addNode_files _ _ _ Hread). eexists. apply (readNodes_written JSON_round_trip).
  - rewrite (deleteNode_files _ _ _ Hread). eexists. apply (readNodes_written JSON_round_trip).
Qed.

(** X3. [addNode] and [deleteNode] write the data file and no other file,
    and they keep a readable store readable. *)
Theorem store_only_file fs0 fs :
  reachable fs0 fs →
  (∀ path, path ≠ dataPath → fs !! path = fs0 !! path) ∧
  (readable fs0 → readable fs).
Proof.
  intros Hreach. split.
  - intros path. by apply reachable_other_files.
  - by apply reachable_readable.
Qed.

(** X4. Deleting the name of an endpoint that was just added removes it
    together with every older endpoint of that name: the store gets back
    the list it held before exactly when the name was not in it. *)
Theorem add_then_delete fs nodes newNode :
  readNodes fs = (fs, Return nodes) →
  let fs' := (deleteNode (name newNode) (addNode newNode fs).1).1 in
  let nodes' := filter (λ node, name node ≠ name newNode) nodes in
  readNodes fs' = (fs', Return nodes') ∧
  (nodes' = nodes ↔ name newNode ∉ name <$> nodes).
Proof.
  intros Hread fs' nodes'. split.
  - unfold fs'. rewrite (addNode_files _ _ _ Hread).
    rewrite (deleteNode_files _ (nodes ++ [newNode]))
      by apply (readNodes_written JSON_round_trip).
    rewrite filter_app, (filter_cons _ newNode), decide_False, filter_nil, app_nil_r
      by (intros Hne; by apply Hne).
    apply (readNodes_written JSON_round_trip).
  - split; [|apply filter_name_absent].
    intros Hsame (node & Hname & Hin)%list_elem_of_fmap.
    rewrite <-Hsame in Hin. apply list_elem_of_filter in Hin as [Hne _]. by apply Hne.
Qed.

(** X5. Deletions commute: deleting two names in either order leaves the
    same files. *)
Theorem delete_commute fs nodes a b :
  readNodes fs = (fs, Return nodes) →
  (deleteNode b (deleteNode a fs).1).1 = (deleteNode a (deleteNode b fs).1).1.
Proof.
  intros Hread.
  rewrite (deleteNode_files _ _ a Hread), (deleteNode_files _ _ b Hread).
  rewrite !(deleteNode_files _ _ _ (readNodes_written JSON_round_trip _ _)).
  rewrite !insert_insert_eq. do 2 f_equal.
  rewrite !list_filter_filter. apply list_filter_iff. tauto.
Qed.

(** *** Seeding, export and import *)

Lemma pipe_copy fs src dst data :
  fs !! src = Some data → src ≠ dst → pipe src dst fs = (<[dst := data]> fs, Return ()).
Proof. intros Hsrc Hne. unfold pipe. by rewrite Hsrc, decide_False. Qed.

Lemma pipe_other_files fs src dst path :
  path ≠ dst → (pipe src dst fs).1 !! path = fs !! path.
Proof.
  intros Hpath. unfold pipe.
  destruct (fs !! src); [destruct (decide (src = dst))|]; simpl;
    by rewrite lookup_insert_ne.
Qed.

(** X6. On first use, when there is no data file, [getNodes] copies the
    sample file to the data path and replies with one record for each
    endpoint of the sample; a second [getNodes] copies nothing and replies
    the same. *)
Theorem getNodes_first_use fs sample nodes :
  fs !! dataPath = None →
  fs !! sampleDataPath = Some sample →
  JSON_parse sample = Return nodes →
  ∃ statuses,
    getNodes fs = (<[dataPath := sample]> fs, Return statuses) ∧
    endpoint <$> statuses = nodes ∧
    getNodes (<[dataPath := sample]> fs) = (<[dataPath := sample]> fs, Return statuses).
Proof.
  intros Hdata Hsample Hparse.
  assert (Hne : sampleDataPath ≠ dataPath) by congruence.
  assert (Hread : readNodes (<[dataPath := sample]> fs) = (<[dataPath := sample]> fs, Return nodes)).
  { by rewrite readNodes_lookup, lookup_insert_eq, Hparse. }
  destruct (Promise_all_nodeWithStatus nodes) as (statuses & Hall & Hends).
  exists statuses. split; [|split; [done|]].
  - unfold getNodes, bind at 1, existsSync.
    rewrite bool_decide_eq_false_2 by (rewrite Hdata; by intros [? [=]]).
    unfold bind at 1. rewrite (pipe_copy _ _ _ _ Hsample Hne).
    unfold bind. by rewrite Hread, <-Hall.
  - by rewrite (getNodes_unfold _ _ Hread), Hall.
Qed.

(** X7. When the data file exists, [getNodes] never replaces it by the
    sample, whatever it holds: the files stay as they are, and an error of
    reading it is thrown on.  No file other than the data file is ever
    written. *)
Theorem getNodes_keeps_data fs data :
  fs !! dataPath = Some data →
  (getNodes fs).1 = fs ∧
  (∀ e, JSON_parse data = Throw e → getNodes fs = (fs, Throw e)) ∧
  (∀ fs' path, path ≠ dataPath → (getNodes fs').1 !! path = fs' !! path).
Proof.
  intros Hdata. split; [|split].
  - unfold getNodes, bind at 1, existsSync.
    rewrite bool_decide_eq_true_2 by (by rewrite Hdata).
    unfold bind at 1. rewrite readNodes_lookup, Hdata.
    by destruct (JSON_parse data).
  - intros e Hparse. unfold getNodes, bind at 1, existsSync.
    rewrite bool_decide_eq_true_2 by (by rewrite Hdata).
    unfold bind at 1. by rewrite readNodes_lookup, Hdata, Hparse.
  - intros fs' path Hpath. unfold getNodes, bind at 1, existsSync.
    destruct (bool_decide _).
    + unfold bind at 1. rewrite readNodes_lookup.
      by destruct (match fs' !! dataPath with Some _ => _ | None => _ end).
    + unfold bind at 1.
      pose proof (pipe_other_files fs' sampleDataPath dataPath path Hpath) as Hpipe.
      destruct (pipe sampleDataPath dataPath fs') as [fs1 [[]|e]]; simpl in *; [|done].
      unfold bind at 1. rewrite readNodes_lookup.
      by destruct (match fs1 !! dataPath with Some _ => _ | None => _ end).
Qed.

(** X8. [exportNodes] writes no file other than the chosen one. *)
Theorem exportNodes_other_files savedFilePath fs path :
  savedFilePath ≠ Some path →
  (exportNodes savedFilePath fs).1 !! path = fs !! path.
Proof.
  intros Hpath. unfold exportNodes.
  destruct savedFilePath as [dst|]; [|done].
  destruct (decide (dst = "")); [done|].
  unfold bind. pose proof (pipe_other_files fs dataPath dst path) as Hpipe.
  destruct (pipe dataPath dst fs) as [fs1 [[]|e]]; simpl in *; apply Hpipe; congruence.
Qed.

(** X9. [importNodes] replaces the data file by the bytes of the first
    chosen file and ignores the other chosen files: the list that was stored
    is gone, and the store then holds whatever these bytes parse to.  The
    bytes are not checked: when they are not JSON, the store is unreadable
    afterwards and [addNode] throws. *)
Theorem importNodes_replaces fs path others bytes :
  fs !! path = Some bytes →
  path ≠ dataPath →
  let fs' := <[dataPath := bytes]> fs in
  importNodes (Some (path :: others)) fs = (fs', Return "success") ∧
  readNodes fs' = (fs', JSON_parse bytes) ∧
  (∀ other, other ≠ dataPath → fs' !! other = fs !! other) ∧
  (∀ e newNode, JSON_parse bytes = Throw e → addNode newNode fs' = (fs', Throw e)).
Proof.
  intros Hbytes Hpath fs'.
  assert (Hread : readNodes fs' = (fs', JSON_parse bytes)).
  { unfold fs'. by rewrite readNodes_lookup, lookup_insert_eq. }
  split; [|split; [done|split]].
  - unfold importNodes, bind. by rewrite (pipe_copy _ _ _ _ Hbytes Hpath).
  - intros other Hother. unfold fs'. by rewrite lookup_insert_ne.
  - intros e newNode Hparse. apply addNode_throws. by rewrite Hread, Hparse.
Qed.

(** X10. A handler answers ["cancel"] exactly when the dialog returned no
    path ([undefined], or an empty string or array), and then it leaves
    every file as it is. *)
Theorem dialog_cancelled fs savedFilePath filePath :
  ((exportNodes savedFilePath fs).2 = Return "cancel" ↔
     savedFilePath = None ∨ savedFilePath = Some "") ∧
  ((exportNodes savedFilePath fs).2 = Return "cancel" →
     (exportNodes savedFilePath fs).1 = fs) ∧
  ((importNodes filePath fs).2 = Return "cancel" ↔
     filePath = None ∨ filePath = Some []) ∧
  ((importNodes filePath fs).2 = Return "cancel" →
     (importNodes filePath fs).1 = fs).
Proof.
  assert (Hpipe : ∀ src dst,
    (bind (pipe src dst) (λ _, ret "success") fs).2 ≠ Return "cancel").
  { intros src dst. unfold bind. by destruct (pipe src dst fs) as [fs1 [[]|e]]. }
  unfold exportNodes, importNodes. split_and!.
  - destruct savedFilePath as [dst|]; [|split; [by eauto|done]].
    destruct (decide (dst = "")) as [->|Hdst]; [split; [by eauto|done]|].
    split; [by intros ?%Hpipe|]. intros [[=]|[=]]. done.
  - destruct savedFilePath as [dst|]; [|done].
    destruct (decide (dst = "")); [done|]. by intros ?%Hpipe.
  - destruct filePath as [[|path others]|];
      [split; [by eauto|done]| |split; [by eauto|done]].
    split; [by intros ?%Hpipe|]. by intros [[=]|[=]].
  - destruct filePath as [[|path others]|]; [done| |done]. by intros ?%Hpipe.
Qed.

(** X11. A backup survives later changes of the store: after an export to a
    destination other than the data file, whatever endpoints are added and
    deleted, importing that destination puts back the bytes that were
    exported. *)
Theorem backup_restore fs record destination fs' :
  fs !! dataPath = Some record →
  destination ≠ "" →
  destination ≠ dataPath →
  reachable (exportNodes (Some destination) fs).1 fs' →
  importNodes (Some [destination]) fs' = (<[dataPath := record]> fs', Return "success").
Proof.
  intros Hrecord Hpath Hfresh Hreach.
  unfold exportNodes in Hreach. rewrite decide_False in Hreach by done.
  unfold bind in Hreach. rewrite (pipe_copy _ _ _ _ Hrecord) in Hreach by done.
  simpl in Hreach.
  apply (reachable_other_files _ _ destination) in Hreach; [|done].
  rewrite lookup_insert_eq in Hreach.
  unfold importNodes, bind. by rewrite (pipe_copy _ _ _ _ Hreach Hfresh).
Qed.

(** *** Chains and blocks *)

(** What [getChains] replies with once the name is resolved to an endpoint. *)
Lemma getChains_unfold arrival nodeName fs nodes node :
  readNodes fs = (fs, Return nodes) →
  find (λ item, bool_decide (name item = nodeName)) nodes = Some node →
  getChains arrival nodeName fs =
    (fs, Return
       match GetBeaconBestState (ConstantRPC (host node) (port node)) with
       | Throw _ => NameOnly [] nodeName
       | Return beaconInfo =>
           match pushShards (ConstantRPC (host node) (port node))
                   (orderBy arrival (range 0 (BeaconBestState.ActiveShards beaconInfo)))
                   [beaconChain beaconInfo] with
           | Throw _ => NameOnly [] nodeName
           | Return chains =>
               match nodeWithStatus node with
               | Return nodeInfo => NodeInfo nodeInfo (orderBy Chain.index chains)
               | Throw _ => NameOnly [] nodeName
               end
           end
       end).
Proof.
  intros Hread Hfind.
  unfold getChains, try_catch, bind at 1. rewrite Hread, Hfind. run.
  destruct (GetBeaconBestState _) as [beaconInfo|e]; [|done].
  destruct (pushShards _ _ _) as [chains|e]; [|done].
  by destruct (nodeWithStatus node).
Qed.

(** The reply of [getChains] depends on the files only through the endpoint
    that the name is resolved to. *)
Lemma getChains_found arrival nodeName fs1 nodes1 fs2 nodes2 node :
  readNodes fs1 = (fs1, Return nodes1) →
  find (λ item, bool_decide (name item = nodeName)) nodes1 = Some node →
  readNodes fs2 = (fs2, Return nodes2) →
  find (λ item, bool_decide (name item = nodeName)) nodes2 = Some node →
  (getChains arrival nodeName fs1).2 = (getChains arrival nodeName fs2).2.
Proof.
  intros Hread1 Hfind1 Hread2 Hfind2.
  by rewrite (getChains_unfold _ _ _ _ _ Hread1 Hfind1),
             (getChains_unfold _ _ _ _ _ Hread2 Hfind2).
Qed.

Lemma getChains_name_absent arrival nodeName fs nodes :
  readNodes fs = (fs, Return nodes) →
  find (λ item, bool_decide (name item = nodeName)) nodes = None →
  getChains arrival nodeName fs = (fs, Return (NameOnly [] nodeName)).
Proof.
  intros Hread Hfind. unfold getChains, try_catch, bind at 1. by rewrite Hread, Hfind.
Qed.

Lemma getBlocks_name_absent nodeName shardId fs nodes :
  readNodes fs = (fs, Return nodes) →
  find (λ item, bool_decide (name item = nodeName)) nodes = None →
  getBlocks nodeName shardId fs =
    (fs, Throw (TypeError "Cannot read property of undefined")).
Proof.
  intros Hread Hfind. unfold getBlocks, bind at 1. by rewrite Hread, Hfind.
Qed.

(** X12. Once a name is deleted, it is no longer found: [getChains] replies
    with the empty chain list for it, and [getBlocks] throws a
    [TypeError]. *)
Theorem deleted_not_found arrival fs nodes nodeName shardId :
  readNodes fs = (fs, Return nodes) →
  let fs' := (deleteNode nodeName fs).1 in
  getChains arrival nodeName fs' = (fs', Return (NameOnly [] nodeName)) ∧
  (∃ msg, getBlocks nodeName shardId fs' = (fs', Throw (TypeError msg))).
Proof.
  intros Hread fs'. unfold fs'. rewrite (deleteNode_files _ _ _ Hread).
  pose proof (readNodes_written JSON_round_trip fs
                (filter (λ node, name node ≠ nodeName) nodes)) as Hread'.
  split.
  - apply (getChains_name_absent _ _ _ _ Hread'), find_name_deleted.
  - eexists. apply (getBlocks_name_absent _ _ _ _ Hread'), find_name_deleted.
Qed.

(** X13. The first stored endpoint of a name is the one that is queried:
    adding an endpoint, with the same name or another, does not change what
    [getChains] and [getBlocks] reply for a name that was already stored. *)
Theorem added_name_shadowed arrival fs nodes nodeName node newNode shardId :
  readNodes fs = (fs, Return nodes) →
  find (λ item, bool_decide (name item = nodeName)) nodes = Some node →
  let fs' := (addNode newNode fs).1 in
  (getChains arrival nodeName fs').2 = (getChains arrival nodeName fs).2 ∧
  (getBlocks nodeName shardId fs').2 = (getBlocks nodeName shardId fs).2.
Proof.
  intros Hread Hfind fs'. unfold fs'. rewrite (addNode_files _ _ _ Hread).
  pose proof (readNodes_written JSON_round_trip fs (nodes ++ [newNode])) as Hread'.
  pose proof (find_name_app _ _ [newNode] _ Hfind) as Hfind'.
  split.
  - by apply (getChains_found _ _ _ _ _ _ node Hread' Hfind' Hread Hfind).
  - by rewrite (getBlocks_unfold _ _ _ _ _ Hread' Hfind'),
               (getBlocks_unfold _ _ _ _ _ Hread Hfind).
Qed.



Lemma pushShards_indices rpc pending chains chains' :
  pushShards rpc pending chains = Return chains' →
  Chain.index <$> chains' = (Chain.index <$> chains) ++ pending.
Proof.
  revert chains. induction pending as [|i pending IH]; intros chains; simpl.
  - intros [= <-]. by rewrite app_nil_r.
  - destruct (GetShardBestState rpc i) as [shard|e]; [|done].
    intros Hpush%IH. rewrite Hpush, fmap_app, <-app_assoc. done.
Qed.

Lemma pushShards_members rpc pending chains chains' chain :
  pushShards rpc pending chains = Return chains' →
  chain ∈ chains' →
  chain ∈ chains ∨ ∃ i shard, i ∈ pending ∧ chain = shardChain i shard.
Proof.
  revert chains. induction pending as [|i pending IH]; intros chains; simpl.
  - intros [= <-]. by left.
  - destruct (GetShardBestState rpc i) as [shard|e]; [|done].
    intros Hpush Hin. destruct (IH _ Hpush Hin) as [Hold|(j & shard' & Hj & ->)].
    + apply elem_of_app in Hold as [Hold|Hnew]; [by left|].
      apply list_elem_of_singleton in Hnew as ->.
      right. exists i, shard. split; [by left|done].
    + right. exists j, shard'. split; [by right|done].
Qed.

(** How a reply that carries chains came about. *)
Lemma getChains_reply_inv arrival nodeName fs nodes node nodeInfo chains :
  readNodes fs = (fs, Return nodes) →
  find (λ item, bool_decide (name item = nodeName)) nodes = Some node →
  (getChains arrival nodeName fs).2 = Return (NodeInfo nodeInfo chains) →
  ∃ beaconInfo pushed,
    GetBeaconBestState (ConstantRPC (host node) (port node)) = Return beaconInfo ∧
    pushShards (ConstantRPC (host node) (port node))
      (orderBy arrival (range 0 (BeaconBestState.ActiveShards beaconInfo)))
      [beaconChain beaconInfo] = Return pushed ∧
    nodeWithStatus node = Return nodeInfo ∧
    chains = orderBy Chain.index pushed.
Proof.
  intros Hread Hfind. rewrite (getChains_unfold _ _ _ _ _ Hread Hfind). simpl.
  destruct (GetBeaconBestState _) as [beaconInfo|e]; [|done].
  destruct (pushShards _ _ _) as [pushed|e] eqn:Hpush; [|done].
  destruct (nodeWithStatus node) as [nodeInfo'|e]; [|done].
  intros [= -> <-]. by eexists _, _.
Qed.


Lemma chainName_inj (i j : Z) :
  (-1 ≤ i)%Z → (-1 ≤ j)%Z → chainName i = chainName j → i = j.
Proof.
  intros Hi Hj. unfold chainName.
  destruct (decide (i = -1)%Z) as [->|Hi'], (decide (j = -1)%Z) as [->|Hj'];
    [done|discriminate|discriminate|].
  intros Heq%(inj (String.app "Shard "))%(inj pretty). lia.
Qed.

(** X15. When the shard count is not negative, the chains that [getChains]
    replies with have pairwise distinct names, and each is named as
    [getBlocks] names the chain of the same index: ["Beacon"] for [-1] and
    ["Shard i+1"] for shard [i]. *)
Theorem chain_names_agree arrival nodeName shardId fs nodes node beaconInfo nodeInfo chains :
  readNodes fs = (fs, Return nodes) →
  find (λ item, bool_decide (name item = nodeName)) nodes = Some node →
  GetBeaconBestState (ConstantRPC (host node) (port node)) = Return beaconInfo →
  (0 ≤ BeaconBestState.ActiveShards beaconInfo)%Z →
  getChains arrival nodeName fs = (fs, Return (NodeInfo nodeInfo chains)) →
  (∀ chain, chain ∈ chains → Chain.name chain = chainName (Chain.index chain)) ∧
  NoDup (Chain.name <$> chains) ∧
  (∀ blocks, getBlocks nodeName shardId fs = (fs, Return blocks) →
     BlockList.name blocks = chainName shardId ∧
     ∀ chain, chain ∈ chains → Chain.index chain = shardId →
       Chain.name chain = BlockList.name blocks).
Proof.
  intros Hread Hfind Hbeacon Hactive Hreply.
  destruct (getChains_reply_inv arrival nodeName fs nodes node nodeInfo chains Hread Hfind)
    as (beaconInfo' & pushed & Hbeacon' & Hpush & _ & ->); [by rewrite Hreply|].
  assert (beaconInfo' = beaconInfo) as -> by congruence.
  set (n := BeaconBestState.ActiveShards beaconInfo) in *.
  assert (Hrange : ∀ i, i ∈ range 0 n → (0 ≤ i)%Z).
  { intros i. unfold range. destruct (Z.ltb_spec 0 n).
    - intros ?%elem_of_seqZ. lia.
    - replace (0 - n)%Z with 0%Z by lia. by intros ?%elem_of_nil. }
  assert (Hnames : ∀ chain, chain ∈ orderBy Chain.index pushed →
            Chain.name chain = chainName (Chain.index chain)).
  { intros chain Hin. rewrite orderBy_Permutation in Hin.
    destruct (pushShards_members _ _ _ _ _ Hpush Hin)
      as [Hbeacon0|(i & shard & Hi & ->)];
      [by apply list_elem_of_singleton in Hbeacon0 as ->|].
    rewrite orderBy_Permutation in Hi. apply Hrange in Hi.
    unfold chainName. simpl. by rewrite decide_False by lia. }
  assert (Hindices : Chain.index <$> orderBy Chain.index pushed ≡ₚ (-1)%Z :: range 0 n).
  { rewrite orderBy_Permutation, (pushShards_indices _ _ _ _ Hpush). simpl.
    by rewrite orderBy_Permutation. }
  split; [done|]. split.
  - rewrite (list_fmap_ext Chain.name (chainName ∘ Chain.index)).
    2:{ intros k chain Hk. apply Hnames. by eapply list_elem_of_lookup_2. }
    rewrite list_fmap_compose. apply NoDup_fmap_2_strong.
    + intros i j Hi Hj. rewrite Hindices in Hi, Hj. apply chainName_inj.
      * apply elem_of_cons in Hi as [->|?%Hrange]; lia.
      * apply elem_of_cons in Hj as [->|?%Hrange]; lia.
    + rewrite Hindices. apply NoDup_cons. split.
      * intros ?%Hrange. lia.
      * unfold range. destruct (Z.ltb_spec 0 n); [apply NoDup_seqZ|].
        replace (0 - n)%Z with 0%Z by lia. constructor.
  - intros blocks Hblocks.
    rewrite (getBlocks_unfold _ _ _ _ _ Hread Hfind) in Hblocks.
    destruct (GetBlocks _ _ _) as [batch|e]; [|congruence].
    destruct (formatBlock <$> batch) as [|latestBlock rest]; [congruence|].
    injection Hblocks as <-. simpl. split; [done|].
    intros chain Hin <-. by apply Hnames.
Qed.

(** X16. [getBlocks] never writes a file, and it replies exactly when the
    store can be read, the name is stored, and [GetBlocks] resolves with at
    least one block. *)
Theorem getBlocks_replies_iff nodeName shardId fs :
  (getBlocks nodeName shardId fs).1 = fs ∧
  ((∃ chain, (getBlocks nodeName shardId fs).2 = Return chain) ↔
   ∃ nodes node first rest,
     readNodes fs = (fs, Return nodes) ∧
     find (λ item, bool_decide (name item = nodeName)) nodes = Some node ∧
     GetBlocks (ConstantRPC (host node) (port node)) 10 shardId = Return (first :: rest)).
Proof.
  destruct (readNodes_cases fs) as [[nodes Hread]|[e Hread]].
  - destruct (find (λ item, bool_decide (name item = nodeName)) nodes) as [node|] eqn:Hfind.
    + rewrite (getBlocks_unfold _ _ _ _ _ Hread Hfind). split; [done|]. simpl.
      destruct (GetBlocks _ _ _) as [[|first rest]|e] eqn:Hblocks; csimpl.
      * split; [by intros [? [=]]|].
        intros (nodes' & node' & first & rest & Hread' & Hfind' & Hblocks').
        rewrite Hread in Hread'. injection Hread' as <-. congruence.
      * split; [|by eauto]. intros _. by exists nodes, node, first, rest.
      * split; [by intros [? [=]]|].
        intros (nodes' & node' & first & rest & Hread' & Hfind' & Hblocks').
        rewrite Hread in Hread'. injection Hread' as <-. congruence.
    + rewrite (getBlocks_name_absent _ _ _ _ Hread Hfind). split; [done|]. simpl.
      split; [by intros [? [=]]|].
      intros (nodes' & node' & first & rest & Hread' & Hfind' & _).
      rewrite Hread in Hread'. injection Hread' as <-. congruence.
  - assert (Hthrows : getBlocks nodeName shardId fs = (fs, Throw e)).
    { unfold getBlocks, bind at 1. by rewrite Hread. }
    rewrite Hthrows. split; [done|]. simpl.
    split; [by intros [? [=]]|].
    intros (nodes' & node' & first & rest & Hread' & _). congruence.
Qed.

(** X17. [getBlocks] catches nothing: an error of reading the store, and a
    rejection of [GetBlocks], are thrown on as they are. *)
Theorem getBlocks_throws_on nodeName shardId fs e :
  (readNodes fs).2 = Throw e ∨
  (∃ nodes node,
     readNodes fs = (fs, Return nodes) ∧
     find (λ item, bool_decide (name item = nodeName)) nodes = Some node ∧
     GetBlocks (ConstantRPC (host node) (port node)) 10 shardId = Throw e) →
  getBlocks nodeName shardId fs = (fs, Throw e).
Proof.
  intros [Hread%readNodes_throws|(nodes & node & Hread & Hfind & Hblocks)].
  - unfold getBlocks, bind at 1. by rewrite Hread.
  - by rewrite (getBlocks_unfold _ _ _ _ _ Hread Hfind), Hblocks.
Qed.

(** *** [getBlock] *)

Section BlockProperties.
Context `{BlockRpc}.

Lemma getBlock_unfold fs nodes nodeName node blockHash :
  readNodes fs = (fs, Return nodes) →
  find (λ item, bool_decide (name item = nodeName)) nodes = Some node →
  getBlock nodeName blockHash fs =
    (fs, match RetrieveBlock (host node) (port node) blockHash 1 with
         | Return block =>
             Return {| BlockDetail.height := RawBlock.Height block;
                       BlockDetail.hash := RawBlock.Hash block;
                       BlockDetail.producer := RawBlock.BlockProducer block;
                       BlockDetail.tXS := RawBlock.Txs block;
                       BlockDetail.fee := RawBlock.Fee block;
                       BlockDetail.reward := RawBlock.Reward block |}
         | Throw e => Throw e
         end).
Proof.
  intros Hread Hfind. unfold getBlock, bind at 1. rewrite Hread, Hfind. run.
  by destruct (RetrieveBlock _ _ _ _).
Qed.

(** X18. For one and the same raw block, the reply of [getBlock] and the
    summary that [getBlocks] makes agree on height, hash and producer, and
    agree on the counts up to the default: [getBlock] leaves a missing
    [Txs], [Fee] or [Reward] undefined where the summary has [0]. *)
Theorem getBlock_agrees fs nodes nodeName node blockHash block :
  readNodes fs = (fs, Return nodes) →
  find (λ item, bool_decide (name item = nodeName)) nodes = Some node →
  RetrieveBlock (host node) (port node) blockHash 1 = Return block →
  ∃ reply,
    getBlock nodeName blockHash fs = (fs, Return reply) ∧
    BlockDetail.height reply = Block.height (formatBlock block) ∧
    BlockDetail.hash reply = Block.hash (formatBlock block) ∧
    BlockDetail.producer reply = Block.producer (formatBlock block) ∧
    or_default (BlockDetail.tXS reply) 0 = Block.tXS (formatBlock block) ∧
    or_default (BlockDetail.fee reply) 0 = Block.fee (formatBlock block) ∧
    or_default (BlockDetail.reward reply) 0 = Block.reward (formatBlock block) ∧
    (RawBlock.Txs block = None → BlockDetail.tXS reply = None) ∧
    (RawBlock.Fee block = None → BlockDetail.fee reply = None) ∧
    (RawBlock.Reward block = None → BlockDetail.reward reply = None).
Proof.
  intros Hread Hfind Hblock. eexists.
  rewrite (getBlock_unfold _ _ _ _ _ Hread Hfind), Hblock. by split_and!.
Qed.

(** X19. [getBlock] never writes a file; it replies exactly when the store
    can be read, the name is stored and [RetrieveBlock] resolves, and a
    rejection of [RetrieveBlock] is thrown on as it is. *)
Theorem getBlock_replies_iff nodeName blockHash fs :
  (getBlock nodeName blockHash fs).1 = fs ∧
  ((∃ reply, (getBlock nodeName blockHash fs).2 = Return reply) ↔
   ∃ nodes node block,
     readNodes fs = (fs, Return nodes) ∧
     find (λ item, bool_decide (name item = nodeName)) nodes = Some node ∧
     RetrieveBlock (host node) (port node) blockHash 1 = Return block) ∧
  (∀ nodes node e,
     readNodes fs = (fs, Return nodes) →
     find (λ item, bool_decide (name item = nodeName)) nodes = Some node →
     RetrieveBlock (host node) (port node) blockHash 1 = Throw e →
     getBlock nodeName blockHash fs = (fs, Throw e)).
Proof.
  split_and!.
  - destruct (readNodes_cases fs) as [[nodes Hread]|[e Hread]].
    + destruct (find (λ item, bool_decide (name item = nodeName)) nodes) as [node|] eqn:Hfind.
      * by rewrite (getBlock_unfold _ _ _ _ _ Hread Hfind).
      * unfold getBlock, bind at 1. by rewrite Hread, Hfind.
    + unfold getBlock, bind at 1. by rewrite Hread.
  - split.
    + intros [reply Hreply].
      destruct (readNodes_cases fs) as [[nodes Hread]|[e Hread]].
      * destruct (find (λ item, bool_decide (name item = nodeName)) nodes)
          as [node|] eqn:Hfind.
        -- rewrite (getBlock_unfold _ _ _ _ _ Hread Hfind) in Hreply. simpl in Hreply.
           destruct (RetrieveBlock _ _ _ _) as [block|e] eqn:Hblock; [|done].
           by exists nodes, node, block.
        -- revert Hreply. unfold getBlock, bind at 1. by rewrite Hread, Hfind.
      * revert Hreply. unfold getBlock, bind at 1. by rewrite Hread.
    + intros (nodes & node & block & Hread & Hfind & Hblock).
      rewrite (getBlock_unfold _ _ _ _ _ Hread Hfind), Hblock. by eexists.
  - intros nodes node e Hread Hfind Hblock.
    by rewrite (getBlock_unfold _ _ _ _ _ Hread Hfind), Hblock.
Qed.

End BlockProperties.

End MoreProperties.

(** *** The window *)

Lemma runEvents_window events visible :
  Forall (λ e, e = Activate ∨ e = Close) events →
  runEvents events {| mainWindow := Window visible; willQuitApp := false |} =
    ({| mainWindow := Window match last events with
                             | Some Close => false
                             | Some _ => true
                             | None => visible
                             end;
        willQuitApp := false |}, Return ()).
Proof.
  intros Hevents. revert visible.
  induction Hevents as [|e events [->| ->] _ IH]; intros visible; [done| |].
  - change (runEvents (Activate :: events) _)
      with (runEvents events {| mainWindow := Window true; willQuitApp := false |}).
    rewrite IH, last_cons. by destruct (last events) as [[]|].
  - change (runEvents (Close :: events) _)
      with (runEvents events {| mainWindow := Window false; willQuitApp := false |}).
    rewrite IH, last_cons. by destruct (last events) as [[]|].
Qed.

Lemma dispatch_quitting e st :
  willQuitApp st = true → willQuitApp (dispatch e st).1 = true.
Proof.
  destruct st as [window quitting]. simpl. intros ->.
  destruct e, window; done.
Qed.

(** X20. Until the application is asked to quit, closing the window only
    hides it: after [ready], whatever sequence of [close] and [activate]
    events comes, no listener throws, every [close] is prevented, and the
    window is still there, hidden exactly when the last event was a
    [close]. *)
Theorem window_kept_until_quit events :
  Forall (λ e, e = Activate ∨ e = Close) events →
  runEvents (Ready :: events) initialState =
    ({| mainWindow := Window match last events with
                             | Some Close => false
                             | _ => true
                             end;
        willQuitApp := false |}, Return ()) ∧
  (∀ visible,
     onClose {| mainWindow := Window visible; willQuitApp := false |} =
       ({| mainWindow := Window false; willQuitApp := false |}, Return true)).
Proof.
  intros Hevents. split; [|done].
  change (runEvents (Ready :: events) initialState)
    with (runEvents events {| mainWindow := Window true; willQuitApp := false |}).
  rewrite (runEvents_window _ _ Hevents).
  by destruct (last events) as [[]|].
Qed.

(** X21. Once [before-quit] has come, [willQuitApp] stays set whatever
    follows, and a [close] is no longer prevented: it sets [mainWindow] to
    [null], after which an [activate] throws a [TypeError]. *)
Theorem window_released_on_quit st visible :
  mainWindow st = Window visible →
  runEvents [BeforeQuit; Close] st =
    ({| mainWindow := WindowNull; willQuitApp := true |}, Return ()) ∧
  onClose (dispatch BeforeQuit st).1 =
    ({| mainWindow := WindowNull; willQuitApp := true |}, Return false) ∧
  (∃ msg, runEvents [BeforeQuit; Close; Activate] st =
     ({| mainWindow := WindowNull; willQuitApp := true |}, Throw (TypeError msg))) ∧
  (∀ events, willQuitApp (runEvents (BeforeQuit :: events) st).1 = true).
Proof.
  destruct st as [window quitting]. simpl. intros ->.
  split; [done|]. split; [done|]. split; [by eexists|].
  intros events.
  change (runEvents (BeforeQuit :: events) _)
    with (runEvents events {| mainWindow := Window visible; willQuitApp := true |}).
  assert (Hquit : ∀ st, willQuitApp st = true → willQuitApp (runEvents events st).1 = true);
    [|by apply Hquit].
  induction events as [|e events IH]; intros st Hst; [done|].
  simpl. unfold bind at 1.
  pose proof (dispatch_quitting e st Hst) as Hstep.
  destruct (dispatch e st) as [st' [[]|err]]; simpl in *; [by apply IH|done].
Qed.

(** ** The further properties on the concrete platform *)

Section MoreExamples.
Import Sample.
#[local] Existing Instance platform.
#[local] Existing Instance SampleBlocks.blockRpc.

(** X2 on a machine that has no data file yet. *)
Lemma unreadable_store_untouched_witness :
  addNode A (∅ : gmap string (@Buffer platform)) = (∅, Throw (ENOENT dataPath)) ∧
  deleteNode "A" (∅ : gmap string (@Buffer platform)) = (∅, Throw (ENOENT dataPath)) ∧
  ((∅ : gmap string (@Buffer platform)) !! dataPath = None →
     ENOENT dataPath = ENOENT dataPath).
Proof.
  apply (unreadable_store_untouched (H:=platform) ∅ (ENOENT dataPath) A "A"). reflexivity.
Defined.

(** X3 after an [addNode] and a [deleteNode]. *)
Lemma store_only_file_witness :
  let fs := (deleteNode "B" (addNode A (store [B])).1).1 in
  (∀ path, path ≠ dataPath → fs !! path = store [B] !! path) ∧
  (readable (store [B]) → readable fs).
Proof.
  apply (store_only_file sample_round_trip).
  apply reachable_delete, reachable_add, reachable_start.
Defined.

(** X4 with a name that is already stored, and so is removed twice. *)
Lemma add_then_delete_witness :
  let fs' := (deleteNode "A" (addNode A (store [A; B])).1).1 in
  readNodes fs' = (fs', Return [B]) ∧
  ([B] = [A; B] ↔ "A" ∉ name <$> [A; B]).
Proof.
  apply (add_then_delete sample_round_trip (store [A; B]) [A; B] A). reflexivity.
Defined.

(** X5 on a store with three endpoints. *)
Lemma delete_commute_witness :
  (deleteNode "B" (deleteNode "A" (store [A; B; F])).1).1 =
  (deleteNode "A" (deleteNode "B" (store [A; B; F])).1).1.
Proof.
  apply (delete_commute sample_round_trip (store [A; B; F]) [A; B; F]). reflexivity.
Defined.

(** X6 on a machine that only has the sample file. *)
Lemma getNodes_first_use_witness :
  let fs : gmap string (@Buffer platform) := {[ "/app/data.sample" := Json [A; B] ]} in
  ∃ statuses,
    getNodes fs = (<[dataPath := Json [A; B]]> fs, Return statuses) ∧
    endpoint <$> statuses = [A; B] ∧
    getNodes (<[dataPath := Json [A; B]]> fs) =
      (<[dataPath := Json [A; B]]> fs, Return statuses).
Proof.
  apply (getNodes_first_use (H:=platform) {[ "/app/data.sample" := Json [A; B] ]} (Json [A; B]) [A; B]);
    reflexivity.
Defined.

(** X7 on a data file that is not JSON. *)
Lemma getNodes_keeps_data_witness :
  let fs : gmap string (@Buffer platform) :=
    {[ "/home/user/incognito-data" := Text "oops"; "/app/data.sample" := Json [A] ]} in
  (getNodes fs).1 = fs ∧
  (∀ e, JSON_parse (Text "oops") = Throw e → getNodes fs = (fs, Throw e)) ∧
  (∀ fs' path, path ≠ dataPath → (getNodes fs').1 !! path = fs' !! path).
Proof.
  apply (getNodes_keeps_data (H:=platform)
           {[ "/home/user/incognito-data" := Text "oops"; "/app/data.sample" := Json [A] ]}
           (Text "oops")).
  reflexivity.
Defined.

(** X8: an export leaves the data file as it is. *)
Lemma exportNodes_other_files_witness :
  (exportNodes (Some "/tmp/nodes.json") (store [A; B])).1 !! dataPath =
    store [A; B] !! dataPath.
Proof.
  apply (exportNodes_other_files (Some "/tmp/nodes.json") (store [A; B]) dataPath).
  discriminate.
Defined.

(** X9: importing a file that is not JSON. *)
Lemma importNodes_replaces_witness :
  let fs : gmap string (@Buffer platform) :=
    {[ "/home/user/incognito-data" := Json [A; B]; "/tmp/notes.txt" := Text "hello" ]} in
  let fs' := <[dataPath := Text "hello"]> fs in
  importNodes (Some ["/tmp/notes.txt"; "/tmp/other"]) fs = (fs', Return "success") ∧
  readNodes fs' = (fs', JSON_parse (Text "hello")) ∧
  (∀ other, other ≠ dataPath → fs' !! other = fs !! other) ∧
  (∀ e newNode, JSON_parse (Text "hello") = Throw e → addNode newNode fs' = (fs', Throw e)).
Proof.
  apply (importNodes_replaces (H:=platform)
           {[ "/home/user/incognito-data" := Json [A; B]; "/tmp/notes.txt" := Text "hello" ]}
           "/tmp/notes.txt" ["/tmp/other"] (Text "hello"));
    [reflexivity|discriminate].
Defined.

(** X11: a backup of [A; B], then a deletion and an addition, then the
    import. *)
Lemma backup_restore_witness :
  let fs' := (addNode F (deleteNode "A"
                (exportNodes (Some "/tmp/nodes.json") (store [A; B])).1).1).1 in
  importNodes (Some ["/tmp/nodes.json"]) fs' =
    (<[dataPath := Json [A; B]]> fs', Return "success").
Proof.
  apply (backup_restore (store [A; B]) (Json [A; B]) "/tmp/nodes.json");
    [reflexivity|discriminate|discriminate|].
  apply reachable_add, reachable_delete, reachable_start.
Defined.

(** X12 on the healthy node. *)
Lemma deleted_not_found_witness :
  let fs' := (deleteNode "A" (store [B; A])).1 in
  getChains id "A" fs' = (fs', Return (NameOnly [] "A")) ∧
  (∃ msg, getBlocks "A" 0 fs' = (fs', Throw (TypeError msg))).
Proof.
  apply (deleted_not_found sample_round_trip id (store [B; A]) [B; A] "A" 0%Z). reflexivity.
Defined.

(** X13: a second endpoint named ["A"], which is down, is added after the
    healthy one. *)
Lemma added_name_shadowed_witness :
  let fs' := (addNode (Node "A" "down" 1) (store [A])).1 in
  (getChains id "A" fs').2 = (getChains id "A" (store [A])).2 ∧
  (getBlocks "A" 0 fs').2 = (getBlocks "A" 0 (store [A])).2.
Proof.
  apply (added_name_shadowed sample_round_trip id (store [A]) [A] "A" A
           (Node "A" "down" 1) 0%Z); reflexivity.
Defined.

(** X15 on the healthy node and its second shard. *)
Lemma chain_names_agree_witness :
  let chains := beaconChain (beacon 2) :: ((λ i, shardChain i (shard i)) <$> seqZ 0 2) in
  (∀ chain, chain ∈ chains → Chain.name chain = chainName (Chain.index chain)) ∧
  NoDup (Chain.name <$> chains) ∧
  (∀ blocks, getBlocks "A" 1 (store [B; A]) = (store [B; A], Return blocks) →
     BlockList.name blocks = chainName 1 ∧
     ∀ chain, chain ∈ chains → Chain.index chain = 1%Z →
       Chain.name chain = BlockList.name blocks).
Proof.
  apply (chain_names_agree (λ i, - i)%Z "A" 1%Z (store [B; A]) [B; A] A (beacon 2)
           (NodeStatus A ONLINE (Some 42%Z) (Some 100%Z))); try reflexivity.
  discriminate.
Defined.

(** X17 on the node that is down. *)
Lemma getBlocks_throws_on_witness :
  getBlocks "B" 0 (store [B; A]) =
    (store [B; A], Throw (RpcError "connect ECONNREFUSED")).
Proof.
  apply getBlocks_throws_on. right. exists [B; A], B. by split_and!.
Defined.

(** X18 on a block without [Txs] and [Fee]. *)
Lemma getBlock_agrees_witness :
  ∃ reply,
    getBlock "A" "h8" (store [A]) = (store [A], Return reply) ∧
    BlockDetail.height reply = Block.height (formatBlock (block 8 None)) ∧
    BlockDetail.hash reply = Block.hash (formatBlock (block 8 None)) ∧
    BlockDetail.producer reply = Block.producer (formatBlock (block 8 None)) ∧
    or_default (BlockDetail.tXS reply) 0 = Block.tXS (formatBlock (block 8 None)) ∧
    or_default (BlockDetail.fee reply) 0 = Block.fee (formatBlock (block 8 None)) ∧
    or_default (BlockDetail.reward reply) 0 = Block.reward (formatBlock (block 8 None)) ∧
    (RawBlock.Txs (block 8 None) = None → BlockDetail.tXS reply = None) ∧
    (RawBlock.Fee (block 8 None) = None → BlockDetail.fee reply = None) ∧
    (RawBlock.Reward (block 8 None) = None → BlockDetail.reward reply = None).
Proof.
  apply (getBlock_agrees (store [A]) [A] "A" A "h8" (block 8 None)); reflexivity.
Defined.

(** X20: the window is closed, shown again and closed. *)
Lemma window_kept_until_quit_witness :
  runEvents [Ready; Close; Activate; Close] initialState =
    ({| mainWindow := Window false; willQuitApp := false |}, Return ()) ∧
  (∀ visible,
     onClose {| mainWindow := Window visible; willQuitApp := false |} =
       ({| mainWindow := Window false; willQuitApp := false |}, Return true)).
Proof.
  apply (window_kept_until_quit [Close; Activate; Close]).
  repeat constructor; by eauto.
Defined.

(** X21 from the state that [ready] leads to. *)
Lemma window_released_on_quit_witness :
  let st := {| mainWindow := Window true; willQuitApp := false |} in
  runEvents [BeforeQuit; Close] st =
    ({| mainWindow := WindowNull; willQuitApp := true |}, Return ()) ∧
  onClose (dispatch BeforeQuit st).1 =
    ({| mainWindow := WindowNull; willQuitApp := true |}, Return false) ∧
  (∃ msg, runEvents [BeforeQuit; Close; Activate] st =
     ({| mainWindow := WindowNull; willQuitApp := true |}, Throw (TypeError msg))) ∧
  (∀ events, willQuitApp (runEvents (BeforeQuit :: events) st).1 = true).
Proof.
  apply (window_released_on_quit {| mainWindow := Window true; willQuitApp := false |} true).
  reflexivity.
Defined.

End MoreExamples.
